(** * PDF-Agent-RAG: the retrieval core, embedded in Rocq

    A shallow embedding of [src/vector_db.py], [src/data_loader.py] and the
    ingest and query steps of [src/main.py].

    Python exceptions are modelled by their class name, the vector store
    service by an explicit [World] that every client call reads, updates and
    logs to, and the remaining external collaborators (PDF reader, sentence
    splitter, embedding capability, uuid5, the store's similarity ranking)
    by the interface [Externals].

    The service answers a request as the specification describes it: an
    upsert inserts or overwrites by id, a search returns the first [limit]
    records of the ranking, a request on a collection that does not exist is
    refused, and no request goes through when the service cannot be reached.
    What else the service validates in a request (the dimension of a vector,
    the form of an id) is not modelled. *)

From stdpp Require Import gmap strings list fin_maps pretty sorting.
From Stdlib Require Import QArith Ascii.

Close Scope Q_scope.
Open Scope string_scope.

(** ** Exceptions and results *)

(** A raised exception, identified by the name of its Python class. *)
Definition exn := string.

Inductive result (A : Type) : Type :=
| Ok (a : A)
| Raise (e : exn).
Arguments Ok {A} a.
Arguments Raise {A} e.

Definition result_bind {A B} (r : result A) (k : A -> result B) : result B :=
  match r with
  | Ok a => k a
  | Raise e => Raise e
  end.

Declare Scope result_scope.
Delimit Scope result_scope with result.
Notation "x <- r ;; k" := (result_bind r (fun x => k))
  (at level 100, r at next level, right associativity) : result_scope.

(** [[f(x) for x in xs]] where [f] may raise: evaluated left to right, the
    first exception ends the comprehension. *)
Fixpoint comprehension {A B} (f : A -> result B) (xs : list A) : result (list B) :=
  match xs with
  | [] => Ok []
  | x :: xs' =>
      (y <- f x ;; ys <- comprehension f xs' ;; Ok (y :: ys))%result
  end.

(** [l[i]] for [i >= 0]. *)
Definition py_index {A} (l : list A) (i : nat) : result A :=
  match l !! i with
  | Some x => Ok x
  | None => Raise "IndexError"
  end.

(** [range(n)] *)
Definition range (n : nat) : list nat := seq 0 n.

(** ** The vector store service (qdrant) *)

Inductive Distance := COSINE | EUCLID | DOT | MANHATTAN.

(** [PointStruct(id=..., vector=..., payload=...)]: vector components are
    floats in the source; they are only stored and passed on, never computed
    with, and are rationals here.  Payloads are dictionaries from strings to
    strings, as everything this repository writes and reads is. *)
Record PointStruct := {
  id : string;
  vector : list Q;
  payload : gmap string string
}.

(** A record as the collection keeps it. *)
Record StoredPoint := {
  sp_vector : list Q;
  sp_payload : gmap string string
}.

(** A search hit; [r.payload] may be [None]. *)
Record ScoredPoint := {
  hit_id : string;
  hit_payload : option (gmap string string)
}.

Record Collection := {
  size_ : nat;
  distance : Distance;
  points : gmap string StoredPoint
}.

(** One request of the client to the service. *)
Inductive Call :=
| ReqCollectionExists (name : string)
| ReqCreateCollection (name : string) (dim : nat) (d : Distance)
| ReqUpsert (name : string) (pts : list PointStruct)
| ReqSearch (name : string) (query_vector : list Q) (limit : nat).

(** The service as the client sees it.  [link = Some e] is a service that
    cannot be reached: every request raises [e] in the client.  [calls] logs
    the requests made, newest first. *)
Record World := {
  link : option exn;
  collections : gmap string Collection;
  calls : list Call
}.

(** Code that talks to the service: an exception or a value, and the world
    after it. *)
Definition M (A : Type) : Type := World -> result A * World.

Definition ret {A} (a : A) : M A := fun w => (Ok a, w).

Definition bind {A B} (m : M A) (k : A -> M B) : M B :=
  fun w =>
    match m w with
    | (Ok a, w') => k a w'
    | (Raise e, w') => (Raise e, w')
    end.

(** Code that does not talk to the service. *)
Definition lift {A} (r : result A) : M A := fun w => (r, w).

Declare Scope store_scope.
Delimit Scope store_scope with M.
Notation "x <- m ;; k" := (bind m (fun x => k))
  (at level 100, m at next level, right associativity) : store_scope.
Notation "m ;;; k" := (bind m (fun _ => k))
  (at level 100, right associativity) : store_scope.

(** ** External collaborators *)

(** A page as the PDF reader returns it: [getattr(d, 'text', None)]. *)
Record Document := { text : option string }.

(** An item of [response.data]. *)
Record EmbeddingItem := { embedding : list Q }.

Class Externals := {
  (** [str(uuid.uuid5(uuid.NAMESPACE_URL, name))] *)
  uuid5 : string -> string;
  (** [PDFReader().load_data(file=path)] *)
  load_data : string -> result (list Document);
  (** [splitter.split_text(t)], the splitter built with
      [chunk_size=1000, chunk_overlap=200] *)
  split_text : string -> list string;
  (** [client.embeddings.create(model=..., input=...).data] *)
  embeddings_create : string -> list string -> result (list EmbeddingItem);
  (** all records of a collection, nearest to the query vector first *)
  rank : Collection -> list Q -> list ScoredPoint
}.

(** *** The qdrant client *)

Definition request (c : Call) : M unit :=
  fun w =>
    let w' := {| link := link w; collections := collections w;
                 calls := c :: calls w |} in
    match link w with
    | Some e => (Raise e, w')
    | None => (Ok tt, w')
    end.

Definition get_collection (name : string) : M Collection :=
  fun w =>
    match collections w !! name with
    | Some c => (Ok c, w)
    | None => (Raise "UnexpectedResponse", w)
    end.

Definition put_collection (name : string) (c : Collection) : M unit :=
  fun w =>
    (Ok tt, {| link := link w; collections := <[name := c]> (collections w);
               calls := calls w |}).

Definition client_collection_exists (name : string) : M bool :=
  (request (ReqCollectionExists name) ;;;
   fun w => (Ok (bool_decide (is_Some (collections w !! name))), w))%M.

Definition client_create_collection (name : string) (dim : nat) (d : Distance)
  : M unit :=
  (request (ReqCreateCollection name dim d) ;;;
   fun w =>
     match collections w !! name with
     | Some _ => (Raise "UnexpectedResponse", w)
     | None =>
         put_collection name {| size_ := dim; distance := d; points := ∅ |} w
     end)%M.

(** Upsert: insert or overwrite by id, in the order of the request.  The
    vector is kept as it was sent; a service that keeps it in another form
    (normalised, for the cosine distance) differs in [sp_vector] alone. *)
Definition write_point (m : gmap string StoredPoint) (p : PointStruct)
  : gmap string StoredPoint :=
  <[id p := {| sp_vector := vector p; sp_payload := payload p |}]> m.

Definition client_upsert (name : string) (pts : list PointStruct) : M unit :=
  (request (ReqUpsert name pts) ;;;
   c <- get_collection name ;;
   put_collection name
     {| size_ := size_ c; distance := distance c;
        points := foldl write_point (points c) pts |})%M.

Definition client_search `{Externals} (name : string) (query_vector : list Q)
    (limit : nat) : M (list ScoredPoint) :=
  (request (ReqSearch name query_vector limit) ;;;
   c <- get_collection name ;;
   ret (take limit (rank c query_vector)))%M.

(** ** [src/vector_db.py] *)

(** The dictionary [search] returns: [{'contexts': ..., 'sources': ...}]. *)
Record Found := {
  contexts : list string;
  sources : list string
}.

(** The two accumulators of the loop of [search]: the list [contexts] and the
    Python set [sources]. *)
Definition collect_step (acc : list string * gset string) (r : ScoredPoint)
  : list string * gset string :=
  let payload := default ∅ (hit_payload r) in
  let text := default "" (payload !! "text") in
  let source := default "" (payload !! "source") in
  if bool_decide (text ≠ "")
  then ((acc.1 ++ [text])%list, {[source]} ∪ acc.2)
  else acc.

Definition collect (results : list ScoredPoint) : list string * gset string :=
  foldl collect_step ([], ∅) results.

Module QdrantStorage.

(** [self.client] is the connection to the [World]; [self.collection] is
    what an instance keeps besides. *)
Record t := { collection : string }.

Definition __init__ (collection : string) (dim : nat) : M t :=
  (present <- client_collection_exists collection ;;
   (if negb present
    then client_create_collection collection dim COSINE
    else ret tt) ;;;
   ret {| collection := collection |})%M.

(** The list comprehension that builds [points]. *)
Definition build_points (ids : list string) (vectors : list (list Q))
    (payloads : list (gmap string string)) : result (list PointStruct) :=
  comprehension
    (fun i =>
       (a <- py_index ids i ;;
        v <- py_index vectors i ;;
        p <- py_index payloads i ;;
        Ok {| id := a; vector := v; payload := p |})%result)
    (range (length ids)).

Definition upsert (self : t) (ids : list string) (vectors : list (list Q))
    (payloads : list (gmap string string)) : M unit :=
  (pts <- lift (build_points ids vectors payloads) ;;
   client_upsert (collection self) pts)%M.

(** [top_k] is a count, as the [limit] of the service is.  [list(sources)]
    enumerates a Python set in an order the language does not fix;
    [elements] is one enumeration without repetition. *)
Definition search `{Externals} (self : t) (query_vector : list Q)
    (top_k : nat) : M Found :=
  (results <- client_search (collection self) query_vector top_k ;;
   let acc := collect results in
   ret {| contexts := acc.1; sources := elements acc.2 |})%M.

End QdrantStorage.

(** The defaults of [QdrantStorage()]. *)
Definition default_collection : string := "docs".
Definition default_dim : nat := 3072.

(** ** [src/data_loader.py] *)

Definition EMBED_MODEL : string := "text-embedding-3-large".
Definition EMBED_DIM : nat := 3072.

(** [getattr(d, 'text', None)] is truthy. *)
Definition has_text (d : Document) : option string :=
  match text d with
  | Some t => if bool_decide (t ≠ "") then Some t else None
  | None => None
  end.

Definition load_and_chunk_pdf `{Externals} (path : string)
  : result (list string) :=
  (docs <- load_data path ;;
   let texts := omap has_text docs in
   Ok (foldl (fun chunks t => (chunks ++ split_text t)%list) [] texts))%result.

Definition embed_texts `{Externals} (texts : list string)
  : result (list (list Q)) :=
  (data <- embeddings_create EMBED_MODEL texts ;;
   Ok (map embedding data))%result.

(** ** [src/main.py] *)

(** The models of [custom_types], with the fields the steps use. *)
Record RAGChunkAndSrc := { chunks : list string; source_id : string }.
Record RAGUpsertResult := { ingested : nat }.
Record RAGSearchResult := { rs_contexts : list string; rs_sources : list string }.

(** [ctx.event.data] of a [rag/ingest_pdf] event. *)
Record IngestEvent := { pdf_path : string; ev_source_id : option string }.

Definition _load `{Externals} (ev : IngestEvent) : result RAGChunkAndSrc :=
  let path := pdf_path ev in
  let src := default path (ev_source_id ev) in
  (cs <- load_and_chunk_pdf path ;;
   Ok {| chunks := cs; source_id := src |})%result.

(** [f"{source_id}: {i}"] *)
Definition id_name (src : string) (i : nat) : string :=
  src ++ ": " ++ pretty i.

Definition chunk_ids `{Externals} (src : string) (n : nat) : list string :=
  map (fun i => uuid5 (id_name src i)) (range n).

Definition chunk_payloads (src : string) (cs : list string)
  : result (list (gmap string string)) :=
  comprehension
    (fun i =>
       (c <- py_index cs i ;;
        Ok (<["source" := src]> (<["text" := c]> ∅)))%result)
    (range (length cs)).

Definition _upsert `{Externals} (chunks_and_src : RAGChunkAndSrc)
  : M RAGUpsertResult :=
  let cs := chunks chunks_and_src in
  let src := source_id chunks_and_src in
  (vecs <- lift (embed_texts cs) ;;
   let ids := chunk_ids src (length cs) in
   payloads <- lift (chunk_payloads src cs) ;;
   store <- QdrantStorage.__init__ default_collection default_dim ;;
   QdrantStorage.upsert store ids vecs payloads ;;;
   ret {| ingested := length cs |})%M.

(** The two steps in order; the result is [ingested.model_dump()]. *)
Definition rag_ingest_pdf `{Externals} (ev : IngestEvent) : M (gmap string nat) :=
  (chunks_and_src <- lift (_load ev) ;;
   res <- _upsert chunks_and_src ;;
   ret {[ "ingested" := ingested res ]})%M.

Definition _search `{Externals} (question : string) (top_k : nat)
  : M RAGSearchResult :=
  (vecs <- lift (embed_texts [question]) ;;
   query_vec <- lift (py_index vecs 0) ;;
   store <- QdrantStorage.__init__ default_collection default_dim ;;
   found <- QdrantStorage.search store query_vec top_k ;;
   ret {| rs_contexts := contexts found; rs_sources := sources found |})%M.

(** ** Observations on the store *)

(** The records of a collection whose payload names the source [src]. *)
Definition records_of_source (w : World) (name src : string)
  : gmap string StoredPoint :=
  match collections w !! name with
  | Some c => filter (fun kv => sp_payload kv.2 !! "source" = Some src) (points c)
  | None => ∅
  end.

Definition record_count (w : World) (name src : string) : nat :=
  size (records_of_source w name src).

(** ** Vocabulary of the statements *)

(** The first [length ids] triples of the three sequences, position by
    position. *)
Fixpoint triples (ids : list string) (vectors : list (list Q))
    (payloads : list (gmap string string)) : list PointStruct :=
  match ids, vectors, payloads with
  | a :: ids', v :: vectors', p :: payloads' =>
      {| id := a; vector := v; payload := p |} :: triples ids' vectors' payloads'
  | _, _, _ => []
  end.

(** What the loop of [search] reads from a hit. *)
Definition hit_text (r : ScoredPoint) : string :=
  default "" (default ∅ (hit_payload r) !! "text").

Definition hit_source (r : ScoredPoint) : string :=
  default "" (default ∅ (hit_payload r) !! "source").

(** The hits the loop keeps: those with a non-empty text. *)
Definition kept (results : list ScoredPoint) : list ScoredPoint :=
  filter (fun r => hit_text r ≠ "") results.

(** The world after one more logged request. *)
Definition logged (c : Call) (w : World) : World :=
  {| link := link w; collections := collections w; calls := c :: calls w |}.

(** What [search] answers from the hits the service returned. *)
Definition found_of (results : list ScoredPoint) : Found :=
  {| contexts := hit_text <$> kept results;
     sources := elements (list_to_set (hit_source <$> kept results) : gset string) |}.

(** The payload [_upsert] attaches to a chunk. *)
Definition payload_of (src c : string) : gmap string string :=
  <["source" := src]> (<["text" := c]> ∅).

(** The points [_upsert] sends for the chunks [cs] of [src], given their
    embeddings. *)
Definition ingest_points `{Externals} (src : string) (cs : list string)
    (vecs : list (list Q)) : list PointStruct :=
  triples (chunk_ids src (length cs)) vecs (payload_of src <$> cs).

(** A collection after an upsert of [pts]. *)
Definition written (c : Collection) (pts : list PointStruct) : Collection :=
  {| size_ := size_ c; distance := distance c;
     points := foldl write_point (points c) pts |}.

(** The collection a store construction creates. *)
Definition fresh (dim : nat) : Collection :=
  {| size_ := dim; distance := COSINE; points := ∅ |}.

(** A page without extractable text. *)
Definition blank (d : Document) : Prop := text d = None \/ text d = Some "".

(** The world after a store construction that succeeded. *)
Definition ensured (name : string) (dim : nat) (w : World) : World :=
  match collections w !! name with
  | Some _ => logged (ReqCollectionExists name) w
  | None =>
      {| link := link w;
         collections := <[name := fresh dim]> (collections w);
         calls := ReqCreateCollection name dim COSINE
                  :: ReqCollectionExists name :: calls w |}
  end.

(** The world after an upsert request that succeeded on the collection
    [c]. *)
Definition upserted (name : string) (c : Collection) (pts : list PointStruct)
    (w : World) : World :=
  {| link := link w;
     collections := <[name := written c pts]> (collections w);
     calls := ReqUpsert name pts :: calls w |}.

(** The number of records of a collection whose payload names [src]. *)
Definition count_in (c : Collection) (src : string) : nat :=
  size (filter (fun kv => sp_payload kv.2 !! "source" = Some src) (points c)).

(** A point without its vector, and an upsert seen on the payloads alone. *)
Definition id_payload (p : PointStruct) : string * gmap string string :=
  (id p, payload p).

Definition put {V} (m : gmap string V) (kv : string * V) : gmap string V :=
  <[kv.1 := kv.2]> m.

(** ** A concrete instance of the collaborators

    Used to run the code on concrete inputs: ids are tagged names, every
    page is split into character windows of 1000 with an overlap of 200, an
    embedding repeats the length of its text [EMBED_DIM] times, and a search
    ranks the records of the collection by id. *)
Module Demo.

Definition window_split (size overlap : nat) (t : string) : list string :=
  let step := size - overlap in
  let len := String.length t in
  let n := (if len <=? size then 1 else S ((len - size + step - 1) / step))%nat in
  map (fun i => String.substring (i * step) size t) (range n).

Definition pages (path : string) : result (list Document) :=
  if String.eqb path "scan.pdf"
  then Ok [ {| text := None |}; {| text := Some "" |} ]
  else if String.eqb path "policy.pdf"
  then Ok [ {| text := Some "Refunds are processed within 30 days." |} ]
  else if String.eqb path "long.pdf"
  then Ok [ {| text := Some (String.concat "" (replicate 240 "0123456789")) |} ]
  else Raise "FileNotFoundError".

Definition as_hit (kv : string * StoredPoint) : ScoredPoint :=
  {| hit_id := kv.1; hit_payload := Some (sp_payload kv.2) |}.

Definition by_id (x y : string * StoredPoint) : Prop :=
  Is_true (String.leb x.1 y.1).

Definition externals : Externals := {|
  uuid5 := fun name => "uuid5:" ++ name;
  load_data := pages;
  split_text := window_split 1000 200;
  embeddings_create := fun _ texts =>
    Ok (map (fun t => {| embedding :=
                         replicate EMBED_DIM
                           (inject_Z (Z.of_nat (String.length t))) |})
        texts);
  rank := fun c _ => map as_hit (merge_sort by_id (map_to_list (points c)))
|}.

Definition empty_world : World :=
  {| link := None; collections := ∅; calls := [] |}.

Definition unreachable_world : World :=
  {| link := Some "ResponseHandlingException"; collections := ∅; calls := [] |}.

(** A collection made for 8-dimensional vectors. *)
Definition small_docs : Collection :=
  {| size_ := 8; distance := COSINE; points := ∅ |}.

Definition small_world : World :=
  {| link := None; collections := {[ "docs" := small_docs ]}; calls := [] |}.

(** An empty collection made for 1-dimensional vectors. *)
Definition line_docs : Collection :=
  {| size_ := 1; distance := COSINE; points := ∅ |}.

Definition line_world : World :=
  {| link := None; collections := {[ "docs" := line_docs ]}; calls := [] |}.

Definition record (src txt : string) : StoredPoint :=
  {| sp_vector := [1%Q];
     sp_payload := <["source" := src]> (<["text" := txt]> ∅) |}.

(** Three records; the first by id has an empty text, the last has no
    source. *)
Definition mixed_docs : Collection :=
  {| size_ := 1; distance := COSINE;
     points := <["a" := record "blank.pdf" ""]>
               (<["b" := record "policy.pdf" "Refunds are processed within 30 days."]>
               (<["c" := {| sp_vector := [1%Q];
                            sp_payload := {[ "text" := "orphan" ]} |}]> ∅)) |}.

Definition mixed_world : World :=
  {| link := None; collections := {[ "docs" := mixed_docs ]}; calls := [] |}.

Definition docs : QdrantStorage.t := {| QdrantStorage.collection := "docs" |}.

End Demo.

(** ** Collaborators that misbehave

    An embedding capability that answers with one vector less than it was
    given texts; the rest is as in [Demo]. *)
Module Faulty.

Definition short_externals : Externals := {|
  uuid5 := @uuid5 Demo.externals;
  load_data := @load_data Demo.externals;
  split_text := @split_text Demo.externals;
  embeddings_create := fun _ texts =>
    Ok (map (fun t => {| embedding := replicate EMBED_DIM 0%Q |}) (tail texts));
  rank := @rank Demo.externals
|}.

End Faulty.

(** ** The query and alert functions of [src/main.py]

    Besides the store these talk to the completion service and to a mail
    server.  The requests to each are logged, newest first, next to the
    [World] of the store. *)

(** [ai.openai.Adapter(auth_key=..., model=...)] *)
Record Adapter := { auth_key : option string; model : string }.

Record Message := { role : string; content : string }.

(** The [body] of an inference request. *)
Record InferBody := {
  max_tokens : nat;
  temperature : Q;
  messages : list Message
}.

(** [ctx.step.ai.infer(step_id, adapter=..., body=...)] *)
Record InferCall := {
  step_id : string;
  adapter : Adapter;
  body : InferBody
}.

(** The response, as far as the code reads it:
    [res["choices"][i]["message"]["content"]]. *)
Record Choice := { message_content : string }.
Record InferResponse := { choices : list Choice }.

(** [MIMEText(text)] with the three headers the code sets. *)
Record MimeText := {
  mime_text : string;
  mime_subject : string;
  mime_from : option string;
  mime_to : option string
}.

(** What the code asks of the mail server. *)
Inductive SmtpAction :=
| SmtpConnect (host : string) (port : nat)
| SmtpLogin (user password : option string)
| SmtpSendmail (from_addr : option string) (to_addrs : list (option string))
    (msg : string)
| SmtpQuit.

Class Services := {
  (** [os.getenv(name)] *)
  getenv : string -> option string;
  (** the answer of the completion service to a request *)
  infer : InferCall -> result InferResponse;
  (** [s.strip()]; what Python counts as white space is not modelled *)
  strip : string -> string;
  (** [msg.as_string()] *)
  as_string : MimeText -> result string;
  (** the exception an action on the mail server raises, if it raises *)
  smtp_raises : SmtpAction -> option exn
}.

Record Outside := {
  store : World;
  inferred : list InferCall;
  mailed : list SmtpAction
}.

Definition P (A : Type) : Type := Outside -> result A * Outside.

Definition pret {A} (a : A) : P A := fun o => (Ok a, o).

Definition pbind {A B} (m : P A) (k : A -> P B) : P B :=
  fun o =>
    match m o with
    | (Ok a, o') => k a o'
    | (Raise e, o') => (Raise e, o')
    end.

Definition plift {A} (r : result A) : P A := fun o => (r, o).

(** A step that talks to the store only. *)
Definition on_store {A} (m : M A) : P A :=
  fun o =>
    let (r, w') := m (store o) in
    (r, {| store := w'; inferred := inferred o; mailed := mailed o |}).

Declare Scope outside_scope.
Delimit Scope outside_scope with P.
Notation "x <- m ;; k" := (pbind m (fun x => k))
  (at level 100, m at next level, right associativity) : outside_scope.
Notation "m ;;; k" := (pbind m (fun _ => k))
  (at level 100, right associativity) : outside_scope.

Definition ai_infer `{Services} (step : string) (a : Adapter) (b : InferBody)
  : P InferResponse :=
  fun o =>
    let call := {| step_id := step; adapter := a; body := b |} in
    (infer call,
     {| store := store o; inferred := call :: inferred o; mailed := mailed o |}).

Definition smtp `{Services} (a : SmtpAction) : P unit :=
  fun o =>
    let o' := {| store := store o; inferred := inferred o;
                 mailed := a :: mailed o |} in
    match smtp_raises a with
    | Some e => (Raise e, o')
    | None => (Ok tt, o')
    end.

(** [with smtplib.SMTP_SSL(host, port) as server: body]: the connection is
    made on entry; on the way out, also when [body] raised, the server is
    told to quit, and what that raises is what goes on. *)
Definition with_smtp_ssl `{Services} {A} (host : string) (port : nat)
    (body : P A) : P A :=
  (smtp (SmtpConnect host port) ;;;
   fun o =>
     match body o with
     | (r, o1) =>
         match smtp SmtpQuit o1 with
         | (Ok _, o2) => (r, o2)
         | (Raise e, o2) => (Raise e, o2)
         end
     end)%P.

(** The line feed of ["\n"]. *)
Definition nl : string := String "010"%char "".

(** [sep.join(parts)] *)
Definition join (sep : string) (parts : list string) : string :=
  String.concat sep parts.

(** [res["choices"][0]["message"]["content"].strip()] *)
Definition first_content `{Services} (res : InferResponse) : result string :=
  (c <- py_index (choices res) 0 ;; Ok (strip (message_content c)))%result.

(** [ctx.event.data] of a [rag/query_pdf_ai] event. *)
Record QueryEvent := { question : string; ev_top_k : option nat }.

(** The dictionary [rag_query_pdf_ai] returns. *)
Record QueryAnswer := {
  answer : string;
  answer_sources : list string;
  num_contexts : nat
}.

Definition query_context_block (found_contexts : list string) : string :=
  join (nl ++ nl) (map (fun c => "- " ++ c) found_contexts).

Definition query_user_content (context_block question : string) : string :=
  "Use the following context to answer the question. " ++ nl ++ nl
  ++ "Context:" ++ nl ++ context_block ++ nl ++ nl
  ++ "Question: " ++ question ++ nl
  ++ "Answer concisely using the context above.".

Definition rag_query_pdf_ai `{Externals} `{Services} (ev : QueryEvent)
  : P QueryAnswer :=
  let q := question ev in
  let top_k := default 5 (ev_top_k ev) in
  (found <- on_store (_search q top_k) ;;
   let context_block := query_context_block (rs_contexts found) in
   let user_content := query_user_content context_block q in
   let adapter := {| auth_key := getenv "OPENAI_API_KEY";
                     model := "gpt-4o-mini" |} in
   res <- ai_infer "llm-answer" adapter
            {| max_tokens := 1024;
               temperature := 0.2%Q;
               messages :=
                 [ {| role := "system";
                      content := "You answer questions using only the provided context." |};
                   {| role := "user"; content := user_content |} ] |} ;;
   a <- plift (first_content res) ;;
   pret {| answer := a;
           answer_sources := rs_sources found;
           num_contexts := length (rs_contexts found) |})%P.

(** [ctx.event.data] of a [rag/alert_new_doc] event. *)
Record AlertEvent := { alert_source_id : string; alert_chunks : list string }.

(** The dictionary [rag_alert_new_doc] returns. *)
Record AlertResult := { alert_sent : bool; summary : string }.

Definition rag_alert_new_doc `{Services} (ev : AlertEvent) : P AlertResult :=
  let src := alert_source_id ev in
  let cs := take 5 (alert_chunks ev) in
  let context_block := join (nl ++ nl) cs in
  let adapter := {| auth_key := getenv "OPENAI_API_KEY";
                    model := "gpt-4o-mini" |} in
  (res <- ai_infer "doc-summary" adapter
            {| max_tokens := 1024;
               temperature := 0.2%Q;
               messages :=
                 [ {| role := "system";
                      content := "You summarize new documents for alerting emails." |};
                   {| role := "user";
                      content := "Summarize this document:" ++ nl ++ context_block |} ] |} ;;
   s <- plift (first_content res) ;;
   let sender := getenv "GMAIL_SENDER" in
   let recipient := getenv "GMAIL_RECEIVER" in
   let app_password := getenv "GMAIL_APP_PASSWORD" in
   let msg := {| mime_text := "New document ingested: " ++ src ++ nl ++ nl
                              ++ "Summary:" ++ nl ++ s;
                 mime_subject := "👮‍♂️🚨RAG-AGENT: new document alert: " ++ src;
                 mime_from := sender;
                 mime_to := recipient |} in
   with_smtp_ssl "smtp.gmail.com" 465
     (smtp (SmtpLogin sender app_password) ;;;
      data <- plift (as_string msg) ;;
      smtp (SmtpSendmail sender [recipient] data)) ;;;
   pret {| alert_sent := true; summary := s |})%P.

(** [ctx.event.data] of an alert as it arrives, a dictionary in which either
    key may be missing; [rag_alert_new_doc] above is the function from the
    point where both lookups have succeeded. *)
Record AlertData := {
  data_source_id : option string;
  data_chunks : option (list string)
}.

(** [ctx.event.data['source_id']], then [ctx.event.data["chunks"]]: a missing
    key raises [KeyError] there. *)
Definition rag_alert_new_doc_on `{Services} (d : AlertData) : P AlertResult :=
  match data_source_id d with
  | None => plift (Raise "KeyError")
  | Some src =>
      match data_chunks d with
      | None => plift (Raise "KeyError")
      | Some cs =>
          rag_alert_new_doc {| alert_source_id := src; alert_chunks := cs |}
      end
  end.

(** *** Vocabulary of the statements *)

(** The inference request of a query with the retrieved contexts [cs]. *)
Definition query_call `{Services} (cs : list string) (q : string) : InferCall :=
  {| step_id := "llm-answer";
     adapter := {| auth_key := getenv "OPENAI_API_KEY"; model := "gpt-4o-mini" |};
     body :=
       {| max_tokens := 1024;
          temperature := 0.2%Q;
          messages :=
            [ {| role := "system";
                 content := "You answer questions using only the provided context." |};
              {| role := "user";
                 content := query_user_content (query_context_block cs) q |} ] |} |}.

(** The inference request of an alert for the chunks [cs]. *)
Definition alert_call `{Services} (cs : list string) : InferCall :=
  {| step_id := "doc-summary";
     adapter := {| auth_key := getenv "OPENAI_API_KEY"; model := "gpt-4o-mini" |};
     body :=
       {| max_tokens := 1024;
          temperature := 0.2%Q;
          messages :=
            [ {| role := "system";
                 content := "You summarize new documents for alerting emails." |};
              {| role := "user";
                 content := "Summarize this document:" ++ nl
                            ++ join (nl ++ nl) (take 5 cs) |} ] |} |}.

(** The message of an alert for the source [src] with the summary [s]. *)
Definition alert_message `{Services} (src s : string) : MimeText :=
  {| mime_text := "New document ingested: " ++ src ++ nl ++ nl
                  ++ "Summary:" ++ nl ++ s;
     mime_subject := "👮‍♂️🚨RAG-AGENT: new document alert: " ++ src;
     mime_from := getenv "GMAIL_SENDER";
     mime_to := getenv "GMAIL_RECEIVER" |}.

(** What the block of the [with] statement does and leaves, given the
    message. *)
Definition mail_block `{Services} (msg : MimeText) (pw : option string)
  : result unit * list SmtpAction :=
  let login := SmtpLogin (mime_from msg) pw in
  match smtp_raises login with
  | Some e => (Raise e, [login])
  | None =>
      match as_string msg with
      | Raise e => (Raise e, [login])
      | Ok data =>
          let send := SmtpSendmail (mime_from msg) [mime_to msg] data in
          match smtp_raises send with
          | Some e => (Raise e, [send; login])
          | None => (Ok tt, [send; login])
          end
      end
  end.

(** The separator before or after a non-empty run of items. *)
Definition blank_line_unless_empty (items : list string) : string :=
  match items with
  | [] => ""
  | _ => nl ++ nl
  end.

(** The state with one more inference request, or more mail actions. *)
Definition asked (c : InferCall) (o : Outside) : Outside :=
  {| store := store o; inferred := c :: inferred o; mailed := mailed o |}.

Definition mailing (acts : list SmtpAction) (o : Outside) : Outside :=
  {| store := store o; inferred := inferred o;
     mailed := (acts ++ mailed o)%list |}.

Definition with_store (w : World) (o : Outside) : Outside :=
  {| store := w; inferred := inferred o; mailed := mailed o |}.

(** ** Concrete services

    A completion service that always answers with the same sentence, a mail
    server on which every action succeeds, and variants of them that fail. *)
Module DemoServices.

Definition env (name : string) : option string :=
  if String.eqb name "OPENAI_API_KEY" then Some "sk-demo"
  else if String.eqb name "GMAIL_SENDER" then Some "rag@example.org"
  else if String.eqb name "GMAIL_RECEIVER" then Some "team@example.org"
  else if String.eqb name "GMAIL_APP_PASSWORD" then Some "app-password"
  else None.

Definition render (m : MimeText) : result string :=
  Ok ("Subject: " ++ mime_subject m ++ nl ++ nl ++ mime_text m).

Definition services : Services := {|
  getenv := env;
  infer := fun _ =>
    Ok {| choices := [ {| message_content := "Refunds take 30 days." |} ] |};
  strip := fun s => s;
  as_string := render;
  smtp_raises := fun _ => None
|}.

(** The completion service cannot be reached. *)
Definition no_completion : Services := {|
  getenv := env;
  infer := fun _ => Raise "APIConnectionError";
  strip := fun s => s;
  as_string := render;
  smtp_raises := fun _ => None
|}.


Definition outside (w : World) : Outside :=
  {| store := w; inferred := []; mailed := [] |}.

End DemoServices.

(** ** Running the code *)

(** Unfold the monad, step by step. *)
Ltac run :=
  repeat (progress (cbv [bind ret lift request get_collection put_collection
                         logged] in *;
                    cbn [link collections calls fst snd negb] in *)).

Example demo_ingest_long :
  (@rag_ingest_pdf Demo.externals
     {| pdf_path := "long.pdf"; ev_source_id := None |} Demo.empty_world).1
  = Ok {[ "ingested" := 3 ]}.
Proof. vm_compute. reflexivity. Qed.

Example demo_chunk_lengths :
  (cs <- @load_and_chunk_pdf Demo.externals "long.pdf" ;;
   Ok (map String.length cs))%result = Ok [1000; 1000; 800].
Proof. vm_compute. reflexivity. Qed.

Example demo_ids :
  @chunk_ids Demo.externals "long.pdf" 3
  = ["uuid5:long.pdf: 0"; "uuid5:long.pdf: 1"; "uuid5:long.pdf: 2"].
Proof. vm_compute. reflexivity. Qed.

Example demo_search_mixed :
  (@QdrantStorage.search Demo.externals Demo.docs [1%Q] 5 Demo.mixed_world).1
  = Ok {| contexts := ["Refunds are processed within 30 days."; "orphan"];
          sources := ["policy.pdf"; ""] |}.
Proof. vm_compute. reflexivity. Qed.

(** The query scenario of the specification, on the store an ingest of
    [policy.pdf] leaves. *)
Example demo_query_refund_policy :
  let w := (@rag_ingest_pdf Demo.externals
              {| pdf_path := "policy.pdf"; ev_source_id := None |}
              Demo.empty_world).2 in
  (@_search Demo.externals "What is the refund policy?" 5 w).1
  = Ok {| rs_contexts := ["Refunds are processed within 30 days."];
          rs_sources := ["policy.pdf"] |}.
Proof. vm_compute. reflexivity. Qed.




(** ** Comprehensions over [range] *)

Lemma comprehension_ext {A B} (f g : A -> result B) xs :
  (forall x, f x = g x) -> comprehension f xs = comprehension g xs.
Proof.
  intros E. induction xs as [|x xs IH]; simpl; [done|].
  by rewrite E, IH.
Qed.

Lemma comprehension_fmap {A B C} (f : B -> result C) (g : A -> B) xs :
  comprehension f (g <$> xs) = comprehension (fun x => f (g x)) xs.
Proof.
  induction xs as [|x xs IH]; csimpl; [done|]. by rewrite IH.
Qed.

Lemma comprehension_range_S {B} (f : nat -> result B) n :
  comprehension f (range (S n))
  = (y <- f 0 ;; ys <- comprehension (fun i => f (S i)) (range n) ;;
     Ok (y :: ys))%result.
Proof.
  unfold range. simpl. rewrite <- fmap_S_seq.
  by rewrite comprehension_fmap.
Qed.

Lemma build_points_spec ids vectors payloads :
  QdrantStorage.build_points ids vectors payloads
  = if bool_decide (length ids <= length vectors /\ length ids <= length payloads)
    then Ok (triples ids vectors payloads)
    else Raise "IndexError".
Proof.
  unfold QdrantStorage.build_points.
  revert vectors payloads.
  induction ids as [|a ids IH]; intros vectors payloads.
  - case_bool_decide as Hlen; [done|]. simpl in Hlen. lia.
  - change (length (a :: ids)) with (S (length ids)).
    rewrite comprehension_range_S.
    destruct vectors as [|v vectors].
    { case_bool_decide as Hlen; [|done]. simpl in Hlen. lia. }
    destruct payloads as [|p payloads].
    { case_bool_decide as Hlen; [|done]. simpl in Hlen. lia. }
    cbn [py_index lookup list_lookup result_bind].
    erewrite comprehension_ext; [rewrite (IH vectors payloads) | done].
    simpl length.
    repeat case_bool_decide; try done; lia.
Qed.


Lemma triples_length_min ids vectors payloads :
  length (triples ids vectors payloads)
  = length ids `min` (length vectors `min` length payloads).
Proof.
  revert vectors payloads.
  induction ids as [|a ids IH]; intros [|v vs] [|p ps]; simpl; try lia.
  rewrite IH. lia.
Qed.

(** ** The client calls, in closed form *)

Lemma init_spec name dim w :
  QdrantStorage.__init__ name dim w
  = match link w with
    | Some e => (Raise e, logged (ReqCollectionExists name) w)
    | None =>
        match collections w !! name with
        | Some _ =>
            (Ok {| QdrantStorage.collection := name |},
             logged (ReqCollectionExists name) w)
        | None =>
            (Ok {| QdrantStorage.collection := name |},
             {| link := None;
                collections :=
                  <[name := {| size_ := dim; distance := COSINE; points := ∅ |}]>
                    (collections w);
                calls := ReqCreateCollection name dim COSINE
                         :: ReqCollectionExists name :: calls w |})
        end
    end.
Proof.
  unfold QdrantStorage.__init__, client_collection_exists,
    client_create_collection.
  destruct w as [[e|] cols cs]; run; [done|].
  destruct (cols !! name) as [c|] eqn:E; run.
  - rewrite bool_decide_true by eauto. done.
  - rewrite bool_decide_false by (intros [? ?]; done).
    run. by rewrite E.
Qed.

Lemma client_upsert_spec name pts w :
  client_upsert name pts w
  = match link w with
    | Some e => (Raise e, logged (ReqUpsert name pts) w)
    | None =>
        match collections w !! name with
        | None => (Raise "UnexpectedResponse", logged (ReqUpsert name pts) w)
        | Some c =>
            (Ok tt,
             {| link := None;
                collections :=
                  <[name := {| size_ := size_ c; distance := distance c;
                               points := foldl write_point (points c) pts |}]>
                    (collections w);
                calls := ReqUpsert name pts :: calls w |})
        end
    end.
Proof.
  unfold client_upsert. destruct w as [[e|] cols cs]; run; [done|].
  by destruct (cols !! name) as [c|].
Qed.

Lemma client_upsert_calls name pts w :
  calls (client_upsert name pts w).2 = ReqUpsert name pts :: calls w.
Proof.
  rewrite client_upsert_spec.
  destruct (link w); [done|]. by destruct (collections w !! name).
Qed.

Lemma upsert_spec self ids vectors payloads w :
  QdrantStorage.upsert self ids vectors payloads w
  = if bool_decide (length ids <= length vectors /\ length ids <= length payloads)
    then client_upsert (QdrantStorage.collection self)
           (triples ids vectors payloads) w
    else (Raise "IndexError", w).
Proof.
  unfold QdrantStorage.upsert. unfold bind at 1, lift.
  rewrite build_points_spec. by case_bool_decide.
Qed.

(** ** C2: [upsert] and sequences of different lengths *)

(** One id, two vectors, one payload: the lengths differ, and [upsert] sends
    the request with the one point it could build. *)
Lemma upsert_extra_vector_is_sent :
  let a := "6ba7b810-9dad-11d1-80b4-00c04fd430c8" in
  let p := payload_of "policy.pdf" "Refunds" in
  length [a] ≠ length [[1%Q]; [2%Q]]
  /\ QdrantStorage.upsert Demo.docs [a] [[1%Q]; [2%Q]] [p] Demo.line_world
     = (Ok tt,
        {| link := None;
           collections :=
             {[ "docs" := {| size_ := 1; distance := COSINE;
                             points := {[ a := {| sp_vector := [1%Q];
                                                  sp_payload := p |} ]} |} ]};
           calls := [ReqUpsert "docs"
                       [{| id := a; vector := [1%Q]; payload := p |}]] |}).
Proof. split; [simpl; lia | vm_compute; reflexivity]. Qed.

(** C2, as the code has it.  [upsert] raises [IndexError] with no request
    made and the world untouched exactly when [vectors] or [payloads] is
    shorter than [ids]; otherwise it makes one upsert request, with the first
    [length ids] triples, and what [vectors] and [payloads] hold beyond that
    is ignored. *)
Theorem upsert_length_check self ids vectors payloads w :
  QdrantStorage.upsert self ids vectors payloads w
  = (if bool_decide (length ids <= length vectors /\ length ids <= length payloads)
     then client_upsert (QdrantStorage.collection self)
            (triples ids vectors payloads) w
     else (Raise "IndexError", w))
  /\ length (triples ids vectors payloads)
     = length ids `min` (length vectors `min` length payloads)
  /\ calls (client_upsert (QdrantStorage.collection self)
              (triples ids vectors payloads) w).2
     = ReqUpsert (QdrantStorage.collection self) (triples ids vectors payloads)
       :: calls w.
Proof.
  split_and!.
  - apply upsert_spec.
  - apply triples_length_min.
  - apply client_upsert_calls.
Qed.

(** The scenario of the specification: three ids, two vectors. *)
Example upsert_three_ids_two_vectors :
  QdrantStorage.upsert Demo.docs ["a"; "b"; "c"] [[1%Q]; [2%Q]]
    [∅; ∅; ∅] Demo.small_world
  = (Raise "IndexError", Demo.small_world).
Proof. vm_compute. reflexivity. Qed.

(** ** C3: constructing the store *)

(** The collection exists with dimension 8; constructing the store for
    dimension 3072 succeeds and leaves the collection as it is. *)
Lemma init_accepts_other_dimension :
  (exists c, collections Demo.small_world !! "docs" = Some c /\ size_ c ≠ 3072)
  /\ QdrantStorage.__init__ "docs" 3072 Demo.small_world
     = (Ok Demo.docs, logged (ReqCollectionExists "docs") Demo.small_world).
Proof.
  split.
  - exists Demo.small_docs. split; [vm_compute; reflexivity | simpl; lia].
  - vm_compute. reflexivity.
Qed.

(** C3, as the code has it.  Against a reachable service, constructing the
    store always succeeds: an absent collection is created empty with the
    requested dimension and the cosine distance; an existing collection is
    left as it is, whatever its dimension, and no create request is made. *)
Theorem init_ensures_collection name dim w :
  link w = None ->
  QdrantStorage.__init__ name dim w
  = match collections w !! name with
    | Some _ =>
        (Ok {| QdrantStorage.collection := name |},
         logged (ReqCollectionExists name) w)
    | None =>
        (Ok {| QdrantStorage.collection := name |},
         {| link := None;
            collections :=
              <[name := {| size_ := dim; distance := COSINE; points := ∅ |}]>
                (collections w);
            calls := ReqCreateCollection name dim COSINE
                     :: ReqCollectionExists name :: calls w |})
    end.
Proof. intros L. rewrite init_spec. by rewrite L. Qed.

Lemma init_ensures_collection_witness :
  link Demo.empty_world = None
  /\ QdrantStorage.__init__ "docs" 3072 Demo.empty_world
     = (Ok Demo.docs,
        {| link := None;
           collections :=
             {[ "docs" := {| size_ := 3072; distance := COSINE; points := ∅ |} ]};
           calls := [ReqCreateCollection "docs" 3072 COSINE;
                     ReqCollectionExists "docs"] |}).
Proof.
  split; [reflexivity|].
  rewrite (init_ensures_collection "docs" 3072 Demo.empty_world); reflexivity.
Defined.

(** ** The loop of [search] *)

Lemma collect_step_unfold acc r :
  collect_step acc r
  = if bool_decide (hit_text r ≠ "")
    then ((acc.1 ++ [hit_text r])%list, {[hit_source r]} ∪ acc.2)
    else acc.
Proof. reflexivity. Qed.

Lemma collect_from acc results :
  foldl collect_step acc results
  = ((acc.1 ++ (hit_text <$> kept results))%list,
     list_to_set (hit_source <$> kept results) ∪ acc.2).
Proof.
  revert acc. induction results as [|r rs IH]; intros [ctx srcs].
  - cbn. by rewrite app_nil_r, (left_id_L ∅ (∪)).
  - cbn [foldl]. rewrite IH, collect_step_unfold. unfold kept.
    rewrite filter_cons. case_bool_decide as Ht.
    + rewrite decide_True by done. cbn [fst snd]. csimpl.
      rewrite <- app_assoc.
      rewrite (assoc_L (∪)), (comm_L (∪) _ {[hit_source r]}). done.
    + rewrite decide_False by congruence. done.
Qed.

Lemma collect_spec results :
  collect results
  = (hit_text <$> kept results, list_to_set (hit_source <$> kept results)).
Proof.
  unfold collect. rewrite collect_from. cbn [fst snd].
  by rewrite (right_id_L ∅ (∪)).
Qed.

Lemma search_spec `{Externals} self query_vector top_k w :
  QdrantStorage.search self query_vector top_k w
  = let name := QdrantStorage.collection self in
    let w' := logged (ReqSearch name query_vector top_k) w in
    match link w with
    | Some e => (Raise e, w')
    | None =>
        match collections w !! name with
        | None => (Raise "UnexpectedResponse", w')
        | Some c => (Ok (found_of (take top_k (rank c query_vector))), w')
        end
    end.
Proof.
  unfold QdrantStorage.search, client_search, found_of.
  destruct w as [[e|] cols cs]; run; [done|].
  destruct (cols !! QdrantStorage.collection self) as [c|]; [|done].
  by rewrite collect_spec.
Qed.

Lemma contexts_nonempty results :
  Forall (fun t => t ≠ "") (contexts (found_of results)).
Proof.
  apply Forall_forall. intros t Ht. cbn [found_of contexts] in Ht.
  apply list_elem_of_fmap in Ht as (r & -> & Hr).
  unfold kept in Hr. by apply list_elem_of_filter in Hr as [? _].
Qed.

Lemma contexts_length_take results k :
  length (contexts (found_of (take k results))) <= k.
Proof.
  cbn [found_of contexts]. rewrite length_fmap. unfold kept.
  etrans; [apply length_filter|]. rewrite length_take. lia.
Qed.

Lemma sources_spec results s :
  s ∈ sources (found_of results)
  <-> exists r, r ∈ results /\ hit_text r ≠ "" /\ hit_source r = s.
Proof.
  cbn [found_of sources].
  rewrite elem_of_elements, elem_of_list_to_set, list_elem_of_fmap.
  unfold kept. split.
  - intros (r & -> & Hr). apply list_elem_of_filter in Hr as [? ?]. eauto.
  - intros (r & Hr & Ht & <-). exists r. split; [done|].
    by apply list_elem_of_filter.
Qed.

Lemma kept_texts results :
  hit_text <$> kept results
  = filter (fun t => t ≠ "") (hit_text <$> results).
Proof.
  unfold kept. induction results as [|r rs IH]; [done|].
  csimpl. rewrite !filter_cons, <- IH.
  destruct (decide (hit_text r ≠ "")); done.
Qed.

Lemma search_ok `{Externals} self query_vector top_k w c :
  link w = None ->
  collections w !! QdrantStorage.collection self = Some c ->
  QdrantStorage.search self query_vector top_k w
  = (Ok (found_of (take top_k (rank c query_vector))),
     logged (ReqSearch (QdrantStorage.collection self) query_vector top_k) w).
Proof. intros L C. rewrite search_spec. cbn zeta. by rewrite L, C. Qed.

(** ** C5: at most [top_k] contexts, none of them empty *)

(** C5.  Against a reachable service that has the collection, [search]
    returns; its contexts are at most [top_k], none is the empty string, and
    they are the texts of the hits with the missing and empty ones left
    out: such a hit is dropped and the search still answers. *)
Theorem search_at_most_top_k_nonempty `{Externals} self query_vector top_k w c :
  link w = None ->
  collections w !! QdrantStorage.collection self = Some c ->
  exists found w',
    QdrantStorage.search self query_vector top_k w = (Ok found, w')
    /\ length (contexts found) <= top_k
    /\ Forall (fun t => t ≠ "") (contexts found)
    /\ contexts found
       = filter (fun t => t ≠ "") (hit_text <$> take top_k (rank c query_vector)).
Proof.
  intros L C. eexists _, _. split; [by apply search_ok|]. split_and!.
  - apply contexts_length_take.
  - apply contexts_nonempty.
  - apply kept_texts.
Qed.

Lemma search_at_most_top_k_nonempty_witness :
  exists found w',
    @QdrantStorage.search Demo.externals Demo.docs [1%Q] 2 Demo.mixed_world
    = (Ok found, w')
    /\ length (contexts found) <= 2
    /\ Forall (fun t => t ≠ "") (contexts found)
    /\ contexts found
       = filter (fun t => t ≠ "")
           (hit_text <$> take 2 (@rank Demo.externals Demo.mixed_docs [1%Q])).
Proof.
  apply (@search_at_most_top_k_nonempty Demo.externals Demo.docs [1%Q] 2
           Demo.mixed_world Demo.mixed_docs); reflexivity.
Defined.

(** ** C6: a service that cannot be reached *)

(** The client raises [ResponseHandlingException]; that is what [search]
    raises, not an error of a class of its own. *)
Lemma search_raises_client_error :
  link Demo.unreachable_world = Some "ResponseHandlingException"
  /\ @QdrantStorage.search Demo.externals Demo.docs [1%Q] 5 Demo.unreachable_world
     = (Raise "ResponseHandlingException",
        logged (ReqSearch "docs" [1%Q] 5) Demo.unreachable_world)
  /\ "ResponseHandlingException" ≠ "StoreUnavailableError".
Proof. split_and!; [reflexivity | reflexivity | discriminate]. Qed.

(** C6, as the code has it.  When the service cannot be reached, the search
    call, the collection-exists call and the construction of the store raise
    the client's own exception, unchanged; [search] returns no result, so
    never an empty one. *)
Theorem unreachable_store_raises `{Externals} self query_vector top_k dim w e :
  link w = Some e ->
  let name := QdrantStorage.collection self in
  QdrantStorage.search self query_vector top_k w
  = (Raise e, logged (ReqSearch name query_vector top_k) w)
  /\ client_collection_exists name w
     = (Raise e, logged (ReqCollectionExists name) w)
  /\ QdrantStorage.__init__ name dim w
     = (Raise e, logged (ReqCollectionExists name) w)
  /\ forall found w', QdrantStorage.search self query_vector top_k w ≠ (Ok found, w').
Proof.
  intros L name. split_and!.
  - rewrite search_spec. cbn zeta. by rewrite L.
  - unfold client_collection_exists. run. by rewrite L.
  - rewrite init_spec. by rewrite L.
  - intros found w'. rewrite search_spec. cbn zeta. by rewrite L.
Qed.

Lemma unreachable_store_raises_witness :
  link Demo.unreachable_world = Some "ResponseHandlingException"
  /\ @QdrantStorage.search Demo.externals Demo.docs [1%Q] 5 Demo.unreachable_world
     = (Raise "ResponseHandlingException",
        logged (ReqSearch "docs" [1%Q] 5) Demo.unreachable_world).
Proof.
  split; [reflexivity|].
  apply (@unreachable_store_raises Demo.externals Demo.docs [1%Q] 5 3072
           Demo.unreachable_world "ResponseHandlingException").
  reflexivity.
Defined.

(** ** C7: rank order of the contexts, sources without repetition *)

(** C7.  The contexts are the texts of the kept hits, in the order the
    service ranked them; the sources list has no repetition and holds exactly
    the sources of the kept hits. *)
Theorem search_ranked_contexts_unique_sources `{Externals}
    self query_vector top_k w c :
  link w = None ->
  collections w !! QdrantStorage.collection self = Some c ->
  let hits := take top_k (rank c query_vector) in
  exists found w',
    QdrantStorage.search self query_vector top_k w = (Ok found, w')
    /\ contexts found = hit_text <$> kept hits
    /\ kept hits `sublist_of` hits
    /\ NoDup (sources found)
    /\ forall s, s ∈ sources found
                 <-> exists r, r ∈ hits /\ hit_text r ≠ "" /\ hit_source r = s.
Proof.
  intros L C hits. eexists _, _. split; [by apply search_ok|]. split_and!.
  - done.
  - apply sublist_filter.
  - cbn [found_of sources]. apply NoDup_elements.
  - apply sources_spec.
Qed.

Lemma search_ranked_contexts_unique_sources_witness :
  let hits := take 5 (@rank Demo.externals Demo.mixed_docs [1%Q]) in
  exists found w',
    @QdrantStorage.search Demo.externals Demo.docs [1%Q] 5 Demo.mixed_world
    = (Ok found, w')
    /\ contexts found = hit_text <$> kept hits
    /\ kept hits `sublist_of` hits
    /\ NoDup (sources found)
    /\ forall s, s ∈ sources found
                 <-> exists r, r ∈ hits /\ hit_text r ≠ "" /\ hit_source r = s.
Proof.
  apply (@search_ranked_contexts_unique_sources Demo.externals Demo.docs [1%Q] 5
           Demo.mixed_world Demo.mixed_docs); reflexivity.
Defined.

(** ** C9: dropped hits are not replaced *)

(** C9.  [search] asks the service for [top_k] hits and builds the contexts
    from those alone.  A hit among them with a missing or empty text is
    dropped and nothing takes its place: the contexts are then fewer than
    [top_k], whatever the service ranks behind the first [top_k] hits. *)
Theorem dropped_hits_use_top_k_slots `{Externals}
    self query_vector top_k w c r :
  link w = None ->
  collections w !! QdrantStorage.collection self = Some c ->
  r ∈ take top_k (rank c query_vector) ->
  hit_text r = "" ->
  exists found,
    QdrantStorage.search self query_vector top_k w
    = (Ok found,
       logged (ReqSearch (QdrantStorage.collection self) query_vector top_k) w)
    /\ contexts found = hit_text <$> kept (take top_k (rank c query_vector))
    /\ length (contexts found) < top_k.
Proof.
  intros L C Hr Ht. eexists. split; [by apply search_ok|]. split; [done|].
  cbn [found_of contexts]. rewrite length_fmap. unfold kept.
  eapply Nat.lt_le_trans.
  - apply (length_filter_lt _ _ r); [done|]. by intros ?.
  - rewrite length_take. lia.
Qed.

(** With [top_k = 1] the one hit asked for has an empty text; the two
    records ranked behind it have texts and are not returned. *)
Lemma dropped_hits_use_top_k_slots_witness :
  (exists found,
     @QdrantStorage.search Demo.externals Demo.docs [1%Q] 1 Demo.mixed_world
     = (Ok found, logged (ReqSearch "docs" [1%Q] 1) Demo.mixed_world)
     /\ contexts found
        = hit_text <$> kept (take 1 (@rank Demo.externals Demo.mixed_docs [1%Q]))
     /\ length (contexts found) < 1)
  /\ hit_text <$> drop 1 (@rank Demo.externals Demo.mixed_docs [1%Q])
     = ["Refunds are processed within 30 days."; "orphan"].
Proof.
  split; [|vm_compute; reflexivity].
  apply (@dropped_hits_use_top_k_slots Demo.externals Demo.docs [1%Q] 1
           Demo.mixed_world Demo.mixed_docs
           {| hit_id := "a";
              hit_payload := Some (sp_payload (Demo.record "blank.pdf" "")) |});
    [reflexivity | reflexivity | | reflexivity].
  vm_compute. apply list_elem_of_here.
Defined.

(** ** C10: a hit without a source *)

(** C10.  A hit among those returned whose payload has a non-empty text and
    no ['source'] key is kept: its text is among the contexts, the empty
    string is among the sources, and the search does not raise. *)
Theorem hit_without_source_is_kept `{Externals}
    self query_vector top_k w c r :
  link w = None ->
  collections w !! QdrantStorage.collection self = Some c ->
  r ∈ take top_k (rank c query_vector) ->
  hit_text r ≠ "" ->
  default ∅ (hit_payload r) !! "source" = None ->
  exists found w',
    QdrantStorage.search self query_vector top_k w = (Ok found, w')
    /\ hit_text r ∈ contexts found
    /\ "" ∈ sources found.
Proof.
  intros L C Hr Ht Hs. eexists _, _. split; [by apply search_ok|]. split.
  - cbn [found_of contexts]. apply list_elem_of_fmap_2.
    unfold kept. by apply list_elem_of_filter.
  - apply sources_spec. exists r. split_and!; [done..|].
    unfold hit_source. by rewrite Hs.
Qed.

Lemma hit_without_source_is_kept_witness :
  exists found w',
    @QdrantStorage.search Demo.externals Demo.docs [1%Q] 5 Demo.mixed_world
    = (Ok found, w')
    /\ hit_text {| hit_id := "c"; hit_payload := Some {[ "text" := "orphan" ]} |}
       ∈ contexts found
    /\ "" ∈ sources found.
Proof.
  apply (@hit_without_source_is_kept Demo.externals Demo.docs [1%Q] 5
           Demo.mixed_world Demo.mixed_docs
           {| hit_id := "c"; hit_payload := Some {[ "text" := "orphan" ]} |});
    [reflexivity | reflexivity | | discriminate | reflexivity].
  vm_compute. do 2 apply list_elem_of_further. apply list_elem_of_here.
Defined.

(** ** Upserts overwrite *)

Lemma write_points_union m pts :
  foldl write_point m pts = foldl write_point ∅ pts ∪ m.
Proof.
  induction pts as [|p pts IH] using rev_ind.
  - cbn. by rewrite (left_id_L ∅ (∪)).
  - rewrite !foldl_snoc, IH. unfold write_point.
    by rewrite insert_union_l.
Qed.

Lemma write_points_twice m pts :
  foldl write_point (foldl write_point m pts) pts = foldl write_point m pts.
Proof.
  rewrite (write_points_union (foldl _ m pts)), (write_points_union m).
  by rewrite (assoc_L (∪)), (idemp_L (∪)).
Qed.

Lemma written_twice c pts : written (written c pts) pts = written c pts.
Proof. unfold written. cbn. by rewrite write_points_twice. Qed.

Lemma triples_ids ids vectors payloads :
  length ids <= length vectors -> length ids <= length payloads ->
  id <$> triples ids vectors payloads = ids.
Proof.
  revert vectors payloads.
  induction ids as [|a ids IH]; intros [|v vs] [|p ps]; cbn; try lia; try done.
  intros. rewrite IH; [done|lia..].
Qed.

Lemma chunk_ids_length `{Externals} src n : length (chunk_ids src n) = n.
Proof. unfold chunk_ids, range. by rewrite length_map, length_seq. Qed.

Lemma chunk_ids_lookup `{Externals} src n i :
  i < n -> chunk_ids src n !! i = Some (uuid5 (src ++ ": " ++ pretty i)).
Proof.
  intros Hi. unfold chunk_ids, range, id_name.
  change (map ?f ?l) with (f <$> l).
  rewrite list_lookup_fmap, lookup_seq_lt by done. done.
Qed.

Lemma chunk_payloads_spec src cs :
  chunk_payloads src cs = Ok (payload_of src <$> cs).
Proof.
  unfold chunk_payloads. induction cs as [|c cs IH]; [done|].
  change (length (c :: cs)) with (S (length cs)).
  rewrite comprehension_range_S. cbn [py_index lookup list_lookup result_bind].
  erewrite comprehension_ext; [rewrite IH | done]. done.
Qed.

(** ** The ingest step, in closed form *)

Lemma ensured_lookup name dim w :
  collections (ensured name dim w) !! name
  = Some (default (fresh dim) (collections w !! name)).
Proof.
  unfold ensured. destruct (collections w !! name) as [c|] eqn:E; cbn.
  - done.
  - by rewrite lookup_insert_eq.
Qed.

Lemma ensured_link name dim w : link (ensured name dim w) = link w.
Proof. unfold ensured. by destruct (collections w !! name). Qed.

Lemma init_ensured name dim w :
  link w = None ->
  QdrantStorage.__init__ name dim w
  = (Ok {| QdrantStorage.collection := name |}, ensured name dim w).
Proof.
  intros L. rewrite init_spec, L. unfold ensured, fresh.
  destruct (collections w !! name); [done|]. by rewrite L.
Qed.

Lemma upsert_step_spec `{Externals} cas w :
  _upsert cas w
  = let cs := chunks cas in
    let src := source_id cas in
    match embed_texts cs with
    | Raise e => (Raise e, w)
    | Ok vecs =>
        match link w with
        | Some e => (Raise e, logged (ReqCollectionExists default_collection) w)
        | None =>
            let w0 := ensured default_collection default_dim w in
            let c0 := default (fresh default_dim)
                        (collections w !! default_collection) in
            if bool_decide (length cs <= length vecs)
            then (Ok {| ingested := length cs |},
                  upserted default_collection c0 (ingest_points src cs vecs) w0)
            else (Raise "IndexError", w0)
        end
    end.
Proof.
  cbn zeta. unfold _upsert. unfold bind at 1, lift.
  destruct (embed_texts (chunks cas)) as [vecs|e]; [|done].
  unfold bind at 1. rewrite chunk_payloads_spec.
  unfold bind at 1. rewrite init_spec.
  destruct (link w) as [e|] eqn:L; [done|].
  assert (forall w0 c0,
    link w0 = None -> collections w0 !! default_collection = Some c0 ->
    bind (QdrantStorage.upsert {| QdrantStorage.collection := default_collection |}
            (chunk_ids (source_id cas) (length (chunks cas))) vecs
            (payload_of (source_id cas) <$> chunks cas))
         (fun _ => ret {| ingested := length (chunks cas) |}) w0
    = if bool_decide (length (chunks cas) <= length vecs)
      then (Ok {| ingested := length (chunks cas) |},
            upserted default_collection c0
              (ingest_points (source_id cas) (chunks cas) vecs) w0)
      else (Raise "IndexError", w0)) as Hup.
  { intros w0 c0 L0 C0. unfold bind. rewrite upsert_spec.
    rewrite chunk_ids_length, length_fmap.
    case_bool_decide as Hlen.
    - rewrite bool_decide_true by lia.
      rewrite client_upsert_spec. cbn [QdrantStorage.collection].
      rewrite L0, C0. unfold upserted, written, ingest_points, ret.
      by rewrite L0.
    - rewrite bool_decide_false by lia. done. }
  unfold ensured, fresh.
  destruct (collections w !! default_collection) as [c|] eqn:C;
    cbv beta iota; cbn [default].
  - apply Hup; [done|]. cbn. done.
  - rewrite <- L. apply Hup; [done|]. cbn. by rewrite lookup_insert_eq.
Qed.

Lemma ingest_points_ids `{Externals} src cs vecs :
  length cs <= length vecs ->
  id <$> ingest_points src cs vecs = chunk_ids src (length cs).
Proof.
  intros Hlen. unfold ingest_points.
  apply triples_ids; rewrite chunk_ids_length, ?length_fmap; lia.
Qed.

(** *** Records counted on the payloads *)

Lemma put_union {V} (m : gmap string V) kvs :
  foldl put m kvs = foldl put ∅ kvs ∪ m.
Proof.
  induction kvs as [|kv kvs IH] using rev_ind.
  - cbn. by rewrite (left_id_L ∅ (∪)).
  - rewrite !foldl_snoc, IH. unfold put. by rewrite insert_union_l.
Qed.

Lemma put_twice {V} (m : gmap string V) kvs :
  foldl put (foldl put m kvs) kvs = foldl put m kvs.
Proof.
  rewrite (put_union (foldl _ m kvs)), (put_union m).
  by rewrite (assoc_L (∪)), (idemp_L (∪)).
Qed.

Lemma payloads_written m pts :
  sp_payload <$> foldl write_point m pts
  = foldl put (sp_payload <$> m) (id_payload <$> pts).
Proof.
  revert m. induction pts as [|p pts IH]; intros m; [done|].
  csimpl. rewrite IH. f_equal. unfold write_point, put. by rewrite fmap_insert.
Qed.

Lemma count_in_payloads c src :
  count_in c src
  = size (filter (fun kv : string * gmap string string =>
                    kv.2 !! "source" = Some src)
            (sp_payload <$> points c)).
Proof.
  unfold count_in. by rewrite map_filter_fmap, map_size_fmap.
Qed.

Lemma count_in_written_again c pts1 pts2 src :
  id_payload <$> pts1 = id_payload <$> pts2 ->
  count_in (written (written c pts1) pts2) src = count_in (written c pts1) src.
Proof.
  intros E. rewrite !count_in_payloads. unfold written. cbn [points].
  rewrite (payloads_written (foldl _ _ _)), <- E, payloads_written.
  by rewrite put_twice.
Qed.

Lemma record_count_lookup w name src :
  record_count w name src
  = match collections w !! name with
    | Some c => count_in c src
    | None => 0
    end.
Proof.
  unfold record_count, records_of_source.
  destruct (collections w !! name); [done|]. apply map_size_empty.
Qed.

Lemma triples_id_payload ids vectors payloads :
  length ids <= length vectors ->
  id_payload <$> triples ids vectors payloads = zip ids payloads.
Proof.
  revert vectors payloads.
  induction ids as [|a ids IH]; intros [|v vs] [|p ps]; cbn; try lia; try done.
  intros. rewrite IH; [done|lia].
Qed.

Lemma chunk_ids_ext (E1 E2 : Externals) src n :
  (forall name, @uuid5 E1 name = @uuid5 E2 name) ->
  @chunk_ids E1 src n = @chunk_ids E2 src n.
Proof.
  intros Hu. unfold chunk_ids. apply map_ext. intros i. apply Hu.
Qed.

Lemma ingest_points_id_payload `{Externals} src cs vecs :
  length cs <= length vecs ->
  id_payload <$> ingest_points src cs vecs
  = zip (chunk_ids src (length cs)) (payload_of src <$> cs).
Proof.
  intros Hlen. unfold ingest_points.
  apply triples_id_payload. by rewrite chunk_ids_length.
Qed.

Lemma ensured_present name dim w c :
  collections w !! name = Some c ->
  ensured name dim w = logged (ReqCollectionExists name) w.
Proof. intros C. unfold ensured. by rewrite C. Qed.

(** ** C1: ids derived from the source and the position; re-ingestion *)

(** C1.  The id of chunk [i] of source [s] is the uuid5 of ["s: i"], and an
    ingest step that succeeds has sent these ids in order.  Running the step
    again on the same source and chunks, whatever embeddings the second run
    is given, leaves the number of records of every source as it was, and if
    it succeeds it has the same result and has sent the same ids; with the
    same embeddings it does succeed and every collection is as the first run
    left it. *)
Theorem reingest_overwrites (E1 E2 : Externals) cas w r w1 :
  (forall name, @uuid5 E1 name = @uuid5 E2 name) ->
  @_upsert E1 cas w = (Ok r, w1) ->
  let n := length (chunks cas) in
  let ids := @chunk_ids E1 (source_id cas) n in
  (forall i, i < n ->
     ids !! i = Some (@uuid5 E1 (source_id cas ++ ": " ++ pretty i)))
  /\ (exists pts, head (calls w1) = Some (ReqUpsert default_collection pts)
                  /\ id <$> pts = ids)
  /\ (forall r2 w2, @_upsert E2 cas w1 = (Ok r2, w2) ->
        r2 = r
        /\ exists pts, head (calls w2) = Some (ReqUpsert default_collection pts)
                       /\ id <$> pts = ids)
  /\ (forall name src,
        record_count (@_upsert E2 cas w1).2 name src = record_count w1 name src)
  /\ (exists w2, @_upsert E1 cas w1 = (Ok r, w2)
                 /\ collections w2 = collections w1).
Proof.
  intros Hu Hrun n ids. rewrite upsert_step_spec in Hrun. cbn zeta in Hrun.
  destruct (@embed_texts E1 (chunks cas)) as [vecs|e] eqn:Eemb; [|done].
  destruct (link w) as [e|] eqn:L; [done|].
  case_bool_decide as Hlen; [|done].
  injection Hrun as <- <-.
  set (c0 := default (fresh default_dim) (collections w !! default_collection)).
  set (w0 := ensured default_collection default_dim w).
  set (pts := @ingest_points E1 (source_id cas) (chunks cas) vecs).
  set (w1 := upserted default_collection c0 pts w0).
  assert (link w1 = None) as L1.
  { unfold w1, w0. cbn. by rewrite ensured_link. }
  assert (collections w1 !! default_collection = Some (written c0 pts)) as C1.
  { unfold w1. cbn. by rewrite lookup_insert_eq. }
  assert (collections (ensured default_collection default_dim w1)
          = collections w1) as Hens.
  { by rewrite (ensured_present _ _ _ _ C1). }
  split_and!.
  - intros i Hi. by apply chunk_ids_lookup.
  - exists pts. split; [done|]. by apply ingest_points_ids.
  - intros r2 w2 Hrun2. rewrite upsert_step_spec in Hrun2. cbn zeta in Hrun2.
    destruct (@embed_texts E2 (chunks cas)) as [vecs2|e]; [|done].
    rewrite L1 in Hrun2. case_bool_decide as Hlen2; [|done].
    injection Hrun2 as <- <-. split; [done|].
    eexists. split; [done|].
    rewrite ingest_points_ids by done. symmetry. by apply chunk_ids_ext.
  - intros name src. rewrite upsert_step_spec. cbn zeta.
    destruct (@embed_texts E2 (chunks cas)) as [vecs2|e]; [|done].
    rewrite L1. rewrite !record_count_lookup.
    case_bool_decide as Hlen2; cbn [snd]; [|by rewrite Hens].
    unfold upserted. cbn [collections]. rewrite Hens, C1. cbn [default].
    destruct (decide (name = default_collection)) as [->|Hne].
    + rewrite lookup_insert_eq, C1. apply count_in_written_again.
      unfold pts. rewrite !ingest_points_id_payload by done.
      by rewrite (chunk_ids_ext E1 E2).
    + by rewrite lookup_insert_ne.
  - eexists. split.
    + rewrite upsert_step_spec. cbn zeta. rewrite Eemb, L1, C1. cbn [default].
      by rewrite bool_decide_true.
    + unfold upserted. cbn [collections]. rewrite Hens.
      unfold Datatypes.id. fold pts. rewrite written_twice. by apply insert_id.
Qed.

(** Two chunks of [policy.pdf] ingested into an empty store, then again. *)
Lemma reingest_overwrites_witness :
  let cas := {| chunks := ["one"; "two"]; source_id := "policy.pdf" |} in
  let E := Demo.externals in
  let w1 := (@_upsert E cas Demo.empty_world).2 in
  let ids := @chunk_ids E "policy.pdf" 2 in
  (forall name, @uuid5 E name = @uuid5 E name)
  /\ @_upsert E cas Demo.empty_world = (Ok {| ingested := 2 |}, w1)
  /\ (forall i, i < 2 ->
        ids !! i = Some (@uuid5 E ("policy.pdf" ++ ": " ++ pretty i)))
  /\ (exists pts, head (calls w1) = Some (ReqUpsert default_collection pts)
                  /\ id <$> pts = ids)
  /\ (forall r2 w2, @_upsert E cas w1 = (Ok r2, w2) ->
        r2 = {| ingested := 2 |}
        /\ exists pts, head (calls w2) = Some (ReqUpsert default_collection pts)
                       /\ id <$> pts = ids)
  /\ (forall name src,
        record_count (@_upsert E cas w1).2 name src = record_count w1 name src)
  /\ (exists w2, @_upsert E cas w1 = (Ok {| ingested := 2 |}, w2)
                 /\ collections w2 = collections w1).
Proof.
  intros cas E w1 ids.
  split; [reflexivity|]. split; [vm_compute; reflexivity|].
  apply (reingest_overwrites E E cas Demo.empty_world {| ingested := 2 |} w1);
    [reflexivity | vm_compute; reflexivity].
Defined.

Example demo_reingest_count :
  let cas := {| chunks := ["one"; "two"]; source_id := "policy.pdf" |} in
  let w1 := (@_upsert Demo.externals cas Demo.empty_world).2 in
  let w2 := (@_upsert Demo.externals cas w1).2 in
  record_count w1 "docs" "policy.pdf" = 2
  /\ record_count w2 "docs" "policy.pdf" = 2
  /\ @chunk_ids Demo.externals "policy.pdf" 2
     = ["uuid5:policy.pdf: 0"; "uuid5:policy.pdf: 1"].
Proof. vm_compute. done. Qed.

(** ** The ingest function *)

Lemma rag_ingest_spec `{Externals} ev w :
  rag_ingest_pdf ev w
  = match _load ev with
    | Raise e => (Raise e, w)
    | Ok cas =>
        match _upsert cas w with
        | (Ok res, w') => (Ok {[ "ingested" := ingested res ]}, w')
        | (Raise e, w') => (Raise e, w')
        end
    end.
Proof.
  unfold rag_ingest_pdf. unfold bind at 1, lift.
  destruct (_load ev) as [cas|e]; [|done].
  unfold bind, ret. by destruct (_upsert cas w) as [[res|e] w'].
Qed.

Lemma load_spec `{Externals} ev :
  _load ev
  = match load_and_chunk_pdf (pdf_path ev) with
    | Ok cs => Ok {| chunks := cs;
                     source_id := default (pdf_path ev) (ev_source_id ev) |}
    | Raise e => Raise e
    end.
Proof. reflexivity. Qed.

Lemma blank_pages_no_text docs : Forall blank docs -> omap has_text docs = [].
Proof.
  induction 1 as [|d docs Hd _ IH]; [done|].
  cbn. rewrite IH. unfold has_text.
  destruct Hd as [-> | ->]; [done|].
  by rewrite bool_decide_false by (by intros ?).
Qed.

Lemma written_nil c : written c [] = c.
Proof. by destruct c. Qed.

Lemma record_count_ensured name dim w n src :
  record_count (ensured name dim w) n src = record_count w n src.
Proof.
  rewrite !record_count_lookup. unfold ensured.
  destruct (collections w !! name) as [c|] eqn:C; [done|]. cbn [collections].
  destruct (decide (n = name)) as [->|Hne].
  - rewrite lookup_insert_eq, C. unfold count_in, fresh. cbn [points].
    by rewrite map_filter_empty, map_size_empty.
  - by rewrite lookup_insert_ne.
Qed.


(** ** C4: a document without extractable text *)

(** Both pages of [scan.pdf] are without text; chunking returns the empty
    list and the load step succeeds. *)
Lemma blank_document_loads_without_error :
  @load_data Demo.externals "scan.pdf"
  = Ok [ {| text := None |}; {| text := Some "" |} ]
  /\ @load_and_chunk_pdf Demo.externals "scan.pdf" = Ok []
  /\ @_load Demo.externals {| pdf_path := "scan.pdf"; ev_source_id := None |}
     = Ok {| chunks := []; source_id := "scan.pdf" |}.
Proof. split_and!; reflexivity. Qed.

Lemma ensured_collections name dim w :
  collections (ensured name dim w)
  = match collections w !! name with
    | Some _ => collections w
    | None => <[name := fresh dim]> (collections w)
    end.
Proof. unfold ensured. by destruct (collections w !! name). Qed.

(** The ingest of a document without chunks, step by step. *)
Lemma ingest_no_chunks `{Externals} ev w src :
  _load ev = Ok {| chunks := []; source_id := src |} ->
  rag_ingest_pdf ev w
  = match embed_texts [] with
    | Raise e => (Raise e, w)
    | Ok _ =>
        match link w with
        | Some e => (Raise e, logged (ReqCollectionExists default_collection) w)
        | None =>
            let w0 := ensured default_collection default_dim w in
            (Ok {[ "ingested" := 0 ]},
             {| link := None;
                collections := collections w0;
                calls := ReqUpsert default_collection [] :: calls w0 |})
        end
    end.
Proof.
  intros Hload. rewrite rag_ingest_spec, Hload, upsert_step_spec.
  cbn zeta. cbn [chunks source_id length].
  destruct (embed_texts []) as [vecs|e]; [|done].
  destruct (link w) as [e|] eqn:L; [done|].
  rewrite bool_decide_true by lia. cbn [ingested].
  unfold upserted, ingest_points. cbn [length chunk_ids triples].
  change (triples (chunk_ids src 0) vecs (payload_of src <$> [])) with
    (@nil PointStruct).
  rewrite written_nil, ensured_link, L.
  by rewrite insert_id by apply ensured_lookup.
Qed.

(** C4, as the code has it.  For a document whose pages all have no
    extractable text, chunking returns the empty list and raises nothing,
    and the load step succeeds with no chunks.  The ingest then goes on to
    the embed and upsert step: the embedding capability is asked for the
    embeddings of no texts; when it raises, the ingest raises the same with
    no request to the store; when it answers, the store is constructed and,
    the service being reachable, one upsert request with no points is made
    and the ingest returns the count 0.  No record is written: the
    collections are as they were, or the missing collection has been created
    empty and the others are as they were. *)
Theorem blank_document_ingests_nothing `{Externals} ev docs w :
  load_data (pdf_path ev) = Ok docs ->
  Forall blank docs ->
  load_and_chunk_pdf (pdf_path ev) = Ok []
  /\ _load ev = Ok {| chunks := [];
                      source_id := default (pdf_path ev) (ev_source_id ev) |}
  /\ rag_ingest_pdf ev w
     = match embed_texts [] with
       | Raise e => (Raise e, w)
       | Ok _ =>
           match link w with
           | Some e =>
               (Raise e, logged (ReqCollectionExists default_collection) w)
           | None =>
               let w0 := ensured default_collection default_dim w in
               (Ok {[ "ingested" := 0 ]},
                {| link := None;
                   collections := collections w0;
                   calls := ReqUpsert default_collection [] :: calls w0 |})
           end
       end
  /\ (collections (rag_ingest_pdf ev w).2 = collections w
      \/ (collections w !! default_collection = None
          /\ collections (rag_ingest_pdf ev w).2
             = <[default_collection := fresh default_dim]> (collections w)))
  /\ (forall name src,
        record_count (rag_ingest_pdf ev w).2 name src = record_count w name src).
Proof.
  intros Hdocs Hblank.
  assert (load_and_chunk_pdf (pdf_path ev) = Ok []) as Hchunks.
  { unfold load_and_chunk_pdf. rewrite Hdocs. cbn [result_bind].
    by rewrite blank_pages_no_text. }
  assert (_load ev = Ok {| chunks := [];
                           source_id := default (pdf_path ev) (ev_source_id ev) |})
    as Hload.
  { by rewrite load_spec, Hchunks. }
  pose proof (ingest_no_chunks ev w _ Hload) as Hrun.
  split_and!; [done | done | done | |].
  - rewrite Hrun. destruct (embed_texts []) as [vecs|e]; [|by left].
    destruct (link w); [by left|]. cbn [snd collections].
    rewrite ensured_collections.
    destruct (collections w !! default_collection) eqn:C; [by left | by right].
  - intros name src. rewrite Hrun.
    destruct (embed_texts []) as [vecs|e]; [|done].
    destruct (link w); [done|]. cbn [snd].
    rewrite <- (record_count_ensured default_collection default_dim w name src).
    done.
Qed.

(** A scan without text, ingested into a store that has records: the
    embedding capability of [Demo] answers the empty request, and the ingest
    returns the count 0 after an upsert request with no points. *)
Lemma blank_document_ingests_nothing_witness :
  let ev := {| pdf_path := "scan.pdf"; ev_source_id := None |} in
  let E := Demo.externals in
  (@load_data E "scan.pdf" = Ok [ {| text := None |}; {| text := Some "" |} ]
   /\ Forall blank [ {| text := None |}; {| text := Some "" |} ])
  /\ (@load_and_chunk_pdf E "scan.pdf" = Ok []
      /\ @_load E ev = Ok {| chunks := []; source_id := "scan.pdf" |}
      /\ @rag_ingest_pdf E ev Demo.mixed_world
         = (Ok {[ "ingested" := 0 ]},
            {| link := None;
               collections := collections Demo.mixed_world;
               calls := [ReqUpsert "docs" []; ReqCollectionExists "docs"] |})
      /\ (collections (@rag_ingest_pdf E ev Demo.mixed_world).2
          = collections Demo.mixed_world
          \/ (collections Demo.mixed_world !! default_collection = None
              /\ collections (@rag_ingest_pdf E ev Demo.mixed_world).2
                 = <[default_collection := fresh default_dim]>
                     (collections Demo.mixed_world)))
      /\ (forall name src,
            record_count (@rag_ingest_pdf E ev Demo.mixed_world).2 name src
            = record_count Demo.mixed_world name src)).
Proof.
  intros ev E.
  assert (Forall blank [ {| text := None |}; {| text := Some "" |} ]) as Hb.
  { constructor; [by left|]. constructor; [by right|]. constructor. }
  split; [split; [reflexivity | exact Hb]|].
  exact (@blank_document_ingests_nothing E ev _ Demo.mixed_world eq_refl Hb).
Defined.

(** ** C8: the ingested count *)

(** C8.  An ingest that succeeds returns the number of chunks of the
    document as its ingested count; and an ingest does succeed when chunking
    and embedding succeed with a vector for every chunk and the service is
    reachable. *)
Theorem ingested_is_chunk_count `{Externals} ev w :
  (forall r w', rag_ingest_pdf ev w = (Ok r, w') ->
     exists cs, load_and_chunk_pdf (pdf_path ev) = Ok cs
                /\ r = {[ "ingested" := length cs ]})
  /\ (forall cs vecs,
        load_and_chunk_pdf (pdf_path ev) = Ok cs ->
        embed_texts cs = Ok vecs ->
        length cs <= length vecs ->
        link w = None ->
        exists w', rag_ingest_pdf ev w = (Ok {[ "ingested" := length cs ]}, w')).
Proof.
  split.
  - intros r w'. rewrite rag_ingest_spec, load_spec.
    destruct (load_and_chunk_pdf (pdf_path ev)) as [cs|e]; [|done].
    rewrite upsert_step_spec. cbn zeta. cbn [chunks source_id].
    destruct (embed_texts cs) as [vecs|e]; [|done].
    destruct (link w); [done|].
    case_bool_decide; [|done]. intros [= <- _]. by exists cs.
  - intros cs vecs Hcs Hvecs Hlen L.
    rewrite rag_ingest_spec, load_spec, Hcs, upsert_step_spec.
    cbn zeta. cbn [chunks source_id]. rewrite Hvecs, L.
    rewrite bool_decide_true by done. by eexists.
Qed.

(** The scenario of the specification: 2400 characters, windows of 1000
    overlapping by 200, three chunks. *)
Lemma ingested_is_chunk_count_witness :
  let ev := {| pdf_path := "long.pdf"; ev_source_id := None |} in
  let E := Demo.externals in
  let cs := match @load_and_chunk_pdf E "long.pdf" with
            | Ok cs => cs
            | Raise _ => []
            end in
  let vecs := match @embed_texts E cs with
              | Ok vecs => vecs
              | Raise _ => []
              end in
  @load_and_chunk_pdf E "long.pdf" = Ok cs
  /\ @embed_texts E cs = Ok vecs
  /\ length cs = 3
  /\ length cs <= length vecs
  /\ link Demo.empty_world = None
  /\ exists w', @rag_ingest_pdf E ev Demo.empty_world
                = (Ok {[ "ingested" := length cs ]}, w').
Proof.
  intros ev E cs vecs.
  assert (@load_and_chunk_pdf E "long.pdf" = Ok cs) as H1
    by (vm_compute; reflexivity).
  assert (@embed_texts E cs = Ok vecs) as H2 by (vm_compute; reflexivity).
  assert (length cs <= length vecs) as H3 by (vm_compute; lia).
  split_and!; [exact H1 | exact H2 | vm_compute; reflexivity | exact H3
              | reflexivity |].
  exact (proj2 (@ingested_is_chunk_count E ev Demo.empty_world)
           cs vecs H1 H2 H3 eq_refl).
Defined.

(** * Further properties of the code *)

(** ** What an upsert writes *)

Lemma write_points_lookup_notin m pts a :
  a ∉ id <$> pts -> foldl write_point m pts !! a = m !! a.
Proof.
  revert m. induction pts as [|q pts IH]; intros m Ha; [done|].
  csimpl in Ha. apply not_elem_of_cons in Ha as [Hq Ha].
  cbn [foldl]. rewrite IH by done. unfold write_point.
  by rewrite lookup_insert_ne.
Qed.

Lemma write_points_lookup_last m pts i pt :
  pts !! i = Some pt ->
  (forall j q, i < j -> pts !! j = Some q -> id q ≠ id pt) ->
  foldl write_point m pts !! id pt
  = Some {| sp_vector := vector pt; sp_payload := payload pt |}.
Proof.
  revert m i. induction pts as [|q pts IH]; intros m i Hi Hlast; [done|].
  cbn [foldl]. destruct i as [|i].
  - injection Hi as ->. rewrite write_points_lookup_notin.
    + unfold write_point. by rewrite lookup_insert_eq.
    + intros Hin. apply list_elem_of_fmap in Hin as (q & Hq & Hin).
      apply list_elem_of_lookup in Hin as [j Hj].
      apply (Hlast (S j) q); [lia | done | done].
  - apply (IH _ i); [done|]. intros j q' Hj Hq'.
    apply (Hlast (S j) q'); [lia | done].
Qed.

Lemma write_points_is_Some m pts a :
  is_Some (m !! a) -> is_Some (foldl write_point m pts !! a).
Proof.
  revert m. induction pts as [|q pts IH]; intros m Ha; [done|].
  cbn [foldl]. apply IH. unfold write_point.
  destruct (decide (id q = a)) as [->|Hne].
  - rewrite lookup_insert_eq. eauto.
  - by rewrite lookup_insert_ne.
Qed.

Lemma write_points_size m pts :
  size m <= size (foldl write_point m pts) <= size m + length pts.
Proof.
  revert m. induction pts as [|q pts IH]; intros m; cbn [foldl length]; [lia|].
  specialize (IH (write_point m q)).
  assert (size m <= size (write_point m q) <= S (size m)) as Hq.
  { unfold write_point. rewrite map_size_insert.
    destruct (m !! id q); simpl; lia. }
  lia.
Qed.

Lemma triples_lookup ids vectors payloads i a v p :
  ids !! i = Some a -> vectors !! i = Some v -> payloads !! i = Some p ->
  triples ids vectors payloads !! i
  = Some {| id := a; vector := v; payload := p |}.
Proof.
  revert vectors payloads i.
  induction ids as [|a' ids IH]; intros [|v' vs] [|p' ps] [|i]; try done.
  - by intros [= ->] [= ->] [= ->].
  - cbn. apply IH.
Qed.

Lemma triples_lookup_id ids vectors payloads j q :
  triples ids vectors payloads !! j = Some q -> ids !! j = Some (id q).
Proof.
  revert vectors payloads j.
  induction ids as [|a' ids IH]; intros [|v' vs] [|p' ps] [|j]; try done.
  - by intros [= <-].
  - cbn. apply IH.
Qed.

Lemma upsert_ok self ids vectors payloads w c :
  link w = None ->
  collections w !! QdrantStorage.collection self = Some c ->
  length ids <= length vectors ->
  length ids <= length payloads ->
  QdrantStorage.upsert self ids vectors payloads w
  = (Ok tt,
     upserted (QdrantStorage.collection self) c
       (triples ids vectors payloads) w).
Proof.
  intros L C Hv Hp. rewrite upsert_spec, bool_decide_true by done.
  rewrite client_upsert_spec, L, C. unfold upserted, written. by rewrite L.
Qed.

(** X1.  A triple of a successful [upsert] is found under its id afterwards
    with its payload, when the same id does not occur again further on in
    [ids]; of two triples with one id the payload of the later is kept.
    (In which form the service keeps the vector is left open.) *)
Theorem upsert_then_lookup self ids vectors payloads w c i a p :
  link w = None ->
  collections w !! QdrantStorage.collection self = Some c ->
  length ids <= length vectors ->
  length ids <= length payloads ->
  ids !! i = Some a -> payloads !! i = Some p ->
  (forall j, i < j -> ids !! j ≠ Some a) ->
  exists w' c',
    QdrantStorage.upsert self ids vectors payloads w = (Ok tt, w')
    /\ collections w' !! QdrantStorage.collection self = Some c'
    /\ sp_payload <$> points c' !! a = Some p.
Proof.
  intros L C Hv Hp Hi Hpi Hlast.
  destruct (lookup_lt_is_Some_2 vectors i) as [v Hvi].
  { apply lookup_lt_Some in Hi. lia. }
  eexists _, _.
  split; [by apply upsert_ok|]. split.
  - unfold upserted. cbn [collections]. by rewrite lookup_insert_eq.
  - unfold written. cbn [points].
    rewrite (write_points_lookup_last _ _ i
               {| id := a; vector := v; payload := p |}); [done| |].
    + by apply triples_lookup.
    + cbn [id]. intros j q Hj Hq <-.
      apply (Hlast j Hj). by apply triples_lookup_id in Hq.
Qed.

Lemma upsert_then_lookup_witness :
  let a := "6ba7b810-9dad-11d1-80b4-00c04fd430c8" in
  let p1 := payload_of "policy.pdf" "old" in
  let p2 := payload_of "policy.pdf" "new" in
  exists w' c',
    QdrantStorage.upsert Demo.docs [a; a] [[1%Q]; [2%Q]] [p1; p2] Demo.line_world
    = (Ok tt, w')
    /\ collections w' !! "docs" = Some c'
    /\ sp_payload <$> points c' !! a = Some p2.
Proof.
  intros a p1 p2.
  apply (upsert_then_lookup Demo.docs [a; a] [[1%Q]; [2%Q]] [p1; p2]
           Demo.line_world Demo.line_docs 1 a p2);
    try reflexivity; try (simpl; lia).
  intros [|[|j]] Hj; [lia | lia | discriminate].
Defined.

(** X2.  A successful [upsert] leaves the rest as it was: the dimension and
    the distance of the collection, every record whose id is not among
    [ids], and every other collection.  No record disappears, and the
    collection grows by at most [length ids] records. *)
Theorem upsert_keeps_the_rest self ids vectors payloads w c :
  link w = None ->
  collections w !! QdrantStorage.collection self = Some c ->
  length ids <= length vectors ->
  length ids <= length payloads ->
  exists w' c',
    QdrantStorage.upsert self ids vectors payloads w = (Ok tt, w')
    /\ collections w' !! QdrantStorage.collection self = Some c'
    /\ size_ c' = size_ c /\ distance c' = distance c
    /\ (forall a, a ∉ ids -> points c' !! a = points c !! a)
    /\ (forall a, is_Some (points c !! a) -> is_Some (points c' !! a))
    /\ size (points c) <= size (points c') <= size (points c) + length ids
    /\ (forall other, other ≠ QdrantStorage.collection self ->
          collections w' !! other = collections w !! other).
Proof.
  intros L C Hv Hp. eexists _, _.
  split; [by apply upsert_ok|]. split.
  { unfold upserted. cbn [collections]. by rewrite lookup_insert_eq. }
  unfold written. cbn [size_ distance points]. split_and!; try done.
  - intros a Ha. apply write_points_lookup_notin.
    by rewrite triples_ids.
  - intros a. apply write_points_is_Some.
  - apply write_points_size.
  - pose proof (write_points_size (points c) (triples ids vectors payloads)) as Hs.
    rewrite triples_length_min in Hs. lia.
  - intros other Hne. unfold upserted. cbn [collections].
    by rewrite lookup_insert_ne.
Qed.

Lemma upsert_keeps_the_rest_witness :
  let a := "6ba7b810-9dad-11d1-80b4-00c04fd430c8" in
  let p := payload_of "policy.pdf" "Refunds" in
  exists w' c',
    QdrantStorage.upsert Demo.docs [a] [[1%Q]] [p] Demo.mixed_world = (Ok tt, w')
    /\ collections w' !! "docs" = Some c'
    /\ size_ c' = 1 /\ distance c' = COSINE
    /\ (forall b, b ∉ [a] -> points c' !! b = points Demo.mixed_docs !! b)
    /\ (forall b, is_Some (points Demo.mixed_docs !! b) -> is_Some (points c' !! b))
    /\ size (points Demo.mixed_docs) <= size (points c')
       <= size (points Demo.mixed_docs) + 1
    /\ (forall other, other ≠ "docs" ->
          collections w' !! other = collections Demo.mixed_world !! other).
Proof.
  intros a p.
  apply (upsert_keeps_the_rest Demo.docs [a] [[1%Q]] [p]
           Demo.mixed_world Demo.mixed_docs);
    try reflexivity; simpl; lia.
Defined.

(** ** Constructing the store twice *)

(** X3.  Against a reachable service a store construction succeeds, and a
    second construction for the same collection, for whatever dimension,
    makes the exists request only and changes no collection: the collection
    keeps what the first construction found or made. *)
Theorem init_twice name dim dim' w :
  link w = None ->
  exists w1 w2 c,
    QdrantStorage.__init__ name dim w
    = (Ok {| QdrantStorage.collection := name |}, w1)
    /\ collections w1 !! name = Some c
    /\ QdrantStorage.__init__ name dim' w1
       = (Ok {| QdrantStorage.collection := name |}, w2)
    /\ collections w2 = collections w1
    /\ calls w2 = ReqCollectionExists name :: calls w1.
Proof.
  intros L. eexists _, _, _. split; [by apply init_ensured|].
  split; [apply ensured_lookup|].
  rewrite init_ensured by (by rewrite ensured_link).
  rewrite (ensured_present name dim' (ensured name dim w) _
             (ensured_lookup name dim w)).
  done.
Qed.

Lemma init_twice_witness :
  exists w1 w2 c,
    QdrantStorage.__init__ "docs" 3072 Demo.empty_world = (Ok Demo.docs, w1)
    /\ collections w1 !! "docs" = Some c
    /\ QdrantStorage.__init__ "docs" 8 w1 = (Ok Demo.docs, w2)
    /\ collections w2 = collections w1
    /\ calls w2 = ReqCollectionExists "docs" :: calls w1.
Proof. apply (init_twice "docs" 3072 8 Demo.empty_world). reflexivity. Defined.

(** ** What a search leaves and returns *)

(** X4.  [search] only reads: whether it returns or raises, every
    collection is as before, and the one request it has made is the search
    request for [top_k] hits. *)
Theorem search_reads_only `{Externals} self query_vector top_k w :
  let w' := (QdrantStorage.search self query_vector top_k w).2 in
  collections w' = collections w
  /\ link w' = link w
  /\ calls w'
     = ReqSearch (QdrantStorage.collection self) query_vector top_k :: calls w.
Proof.
  cbn zeta. rewrite search_spec. cbn zeta.
  destruct (link w) as [e|] eqn:L; [by rewrite <- L|].
  destruct (collections w !! QdrantStorage.collection self); by rewrite <- L.
Qed.

Lemma elements_list_to_set_length (l : list string) :
  length (elements (list_to_set l : gset string)) <= length l.
Proof.
  induction l as [|x l IH]; [by rewrite list_to_set_nil, elements_empty|].
  rewrite list_to_set_cons. cbn [length].
  change (length (elements ?X)) with (size X) in *.
  rewrite size_union_alt, size_singleton.
  pose proof (subseteq_size (list_to_set l ∖ {[x]}) (list_to_set l : gset string))
    as Hsub.
  assert (list_to_set l ∖ {[x]} ⊆ (list_to_set l : gset string)) as Hs
    by apply subseteq_difference_l, reflexivity.
  specialize (Hsub Hs). lia.
Qed.

(** X5.  A search never returns more sources than contexts, and it returns
    no source exactly when it returns no context. *)
Theorem sources_at_most_contexts `{Externals} self query_vector top_k w c :
  link w = None ->
  collections w !! QdrantStorage.collection self = Some c ->
  exists found w',
    QdrantStorage.search self query_vector top_k w = (Ok found, w')
    /\ length (sources found) <= length (contexts found)
    /\ (contexts found = [] <-> sources found = []).
Proof.
  intros L C. eexists _, _. split; [by apply search_ok|].
  cbn [found_of contexts sources].
  set (ks := kept (take top_k (rank c query_vector))). split.
  - etrans; [apply elements_list_to_set_length|]. by rewrite !length_fmap.
  - split.
    + intros ->%fmap_nil_inv. csimpl. apply elements_empty.
    + intros Hs. destruct ks as [|r ks]; [done|]. exfalso.
      assert (hit_source r ∈ elements
                (list_to_set (hit_source <$> r :: ks) : gset string)) as Hin.
      { rewrite elem_of_elements, elem_of_list_to_set. csimpl. left. }
      rewrite Hs in Hin. by apply elem_of_nil in Hin.
Qed.

Lemma sources_at_most_contexts_witness :
  exists found w',
    @QdrantStorage.search Demo.externals Demo.docs [1%Q] 5 Demo.mixed_world
    = (Ok found, w')
    /\ length (sources found) <= length (contexts found)
    /\ (contexts found = [] <-> sources found = []).
Proof.
  apply (@sources_at_most_contexts Demo.externals Demo.docs [1%Q] 5
           Demo.mixed_world Demo.mixed_docs); reflexivity.
Defined.

(** ** Ingest: failures and what is written *)

Lemma load_and_chunk_spec `{Externals} path :
  load_and_chunk_pdf path
  = match load_data path with
    | Ok docs => Ok (concat (split_text <$> omap has_text docs))
    | Raise e => Raise e
    end.
Proof.
  unfold load_and_chunk_pdf. destruct (load_data path) as [docs|e]; [|done].
  cbn [result_bind]. f_equal.
  rewrite <- (app_nil_l (concat _)). generalize (@nil string).
  induction (omap has_text docs) as [|t ts IH]; intros acc; csimpl.
  - by rewrite app_nil_r.
  - by rewrite IH, app_assoc.
Qed.

(** X6.  When reading the document, or embedding its chunks, raises, the
    ingest raises the same exception and has made no request to the store:
    the store is constructed only after the embeddings are there. *)
Theorem ingest_fails_before_store `{Externals} ev w e :
  load_data (pdf_path ev) = Raise e
  \/ (exists cs, load_and_chunk_pdf (pdf_path ev) = Ok cs
                 /\ embed_texts cs = Raise e) ->
  rag_ingest_pdf ev w = (Raise e, w).
Proof.
  intros [Hl | (cs & Hcs & He)]; rewrite rag_ingest_spec, load_spec.
  - by rewrite load_and_chunk_spec, Hl.
  - rewrite Hcs, upsert_step_spec. cbn zeta. cbn [chunks].
    by rewrite He.
Qed.

Lemma ingest_fails_before_store_witness :
  @rag_ingest_pdf Demo.externals
    {| pdf_path := "missing.pdf"; ev_source_id := Some "m" |} Demo.mixed_world
  = (Raise "FileNotFoundError", Demo.mixed_world).
Proof.
  apply (@ingest_fails_before_store Demo.externals). left. reflexivity.
Defined.

(** X7.  When the embedding capability answers with fewer vectors than
    there are chunks, the ingest raises [IndexError].  By then the store has
    been constructed, so the collection exists, created if it was absent;
    no upsert request has been made and no record is written. *)
Theorem ingest_too_few_vectors `{Externals} ev w cs vecs :
  load_and_chunk_pdf (pdf_path ev) = Ok cs ->
  embed_texts cs = Ok vecs ->
  length vecs < length cs ->
  link w = None ->
  exists w',
    rag_ingest_pdf ev w = (Raise "IndexError", w')
    /\ w' = ensured default_collection default_dim w
    /\ is_Some (collections w' !! default_collection)
    /\ (forall pts, ReqUpsert default_collection pts ∈ calls w' ->
                    ReqUpsert default_collection pts ∈ calls w)
    /\ (forall name src, record_count w' name src = record_count w name src).
Proof.
  intros Hcs Hvecs Hlen L. eexists. split.
  { rewrite rag_ingest_spec, load_spec, Hcs, upsert_step_spec.
    cbn zeta. cbn [chunks source_id]. rewrite Hvecs, L.
    by rewrite bool_decide_false by lia. }
  split; [done|]. split_and!.
  - rewrite ensured_lookup. eauto.
  - intros pts. unfold ensured.
    destruct (collections w !! default_collection); cbn [calls logged].
    + by intros [?|?]%elem_of_cons.
    + intros [?|[?|?]%elem_of_cons]%elem_of_cons; done.
  - intros name src. apply record_count_ensured.
Qed.

Lemma ingest_too_few_vectors_witness :
  let ev := {| pdf_path := "policy.pdf"; ev_source_id := None |} in
  exists w',
    @rag_ingest_pdf Faulty.short_externals ev Demo.empty_world
    = (Raise "IndexError", w')
    /\ w' = ensured default_collection default_dim Demo.empty_world
    /\ is_Some (collections w' !! default_collection)
    /\ (forall pts, ReqUpsert default_collection pts ∈ calls w' ->
                    ReqUpsert default_collection pts ∈ calls Demo.empty_world)
    /\ (forall name src,
          record_count w' name src = record_count Demo.empty_world name src).
Proof.
  intros ev.
  apply (@ingest_too_few_vectors Faulty.short_externals ev Demo.empty_world
           ["Refunds are processed within 30 days."] []);
    [reflexivity | reflexivity | simpl; lia | reflexivity].
Defined.

Lemma count_written_fresh m pts src :
  NoDup (id <$> pts) ->
  (forall a, a ∈ id <$> pts -> m !! a = None) ->
  size (filter (fun kv => sp_payload kv.2 !! "source" = Some src)
          (foldl write_point m pts))
  = size (filter (fun kv => sp_payload kv.2 !! "source" = Some src) m)
    + length (filter (fun q => payload q !! "source" = Some src) pts).
Proof.
  revert m. induction pts as [|q pts IH]; intros m Hnd Hfresh.
  - cbn. lia.
  - csimpl in Hnd. apply NoDup_cons in Hnd as [Hq Hnd].
    cbn [foldl]. rewrite IH; [|done|].
    + assert (m !! id q = None) as Hm by (apply Hfresh; csimpl; left).
      rewrite filter_cons. unfold write_point.
      destruct (decide (payload q !! "source" = Some src)) as [Hs|Hs].
      * rewrite map_filter_insert_True by done.
        rewrite map_size_insert_None; [cbn [length]; lia|].
        apply map_lookup_filter_None. by left.
      * rewrite map_filter_insert_False by done.
        by rewrite delete_id.
    + intros a Ha. unfold write_point. rewrite lookup_insert_ne.
      * apply Hfresh. csimpl. by right.
      * by intros <-.
Qed.

Lemma payload_of_source src c : payload_of src c !! "source" = Some src.
Proof. unfold payload_of. apply lookup_insert_eq. Qed.

Lemma payload_of_text src c : payload_of src c !! "text" = Some c.
Proof.
  unfold payload_of. rewrite lookup_insert_ne by done. apply lookup_insert_eq.
Qed.

Lemma ingest_points_sources `{Externals} src cs vecs src' :
  length cs <= length vecs ->
  length (filter (fun q => payload q !! "source" = Some src')
            (ingest_points src cs vecs))
  = if decide (src = src') then length cs else 0.
Proof.
  intros Hlen. unfold ingest_points.
  assert (forall ids, length ids = length cs ->
    length (filter (fun q => payload q !! "source" = Some src')
              (triples ids vecs (payload_of src <$> cs)))
    = if decide (src = src') then length cs else 0) as Hgen.
  { revert vecs Hlen.
    induction cs as [|c cs IH]; intros vecs Hlen [|a ids] Hids; try done.
    - by destruct (decide (src = src')).
    - destruct vecs as [|v vecs]; [cbn in Hlen; lia|].
      cbn [triples fmap list_fmap]. rewrite filter_cons. cbn [payload].
      rewrite payload_of_source.
      specialize (IH vecs ltac:(cbn in Hlen; lia) ids ltac:(cbn in Hids; lia)).
      destruct (decide (src = src')) as [->|Hne].
      + rewrite decide_True by done. cbn [length]. by rewrite IH.
      + rewrite decide_False by congruence. done. }
  apply Hgen. apply chunk_ids_length.
Qed.

Lemma upsert_step_ok `{Externals} cas w vecs :
  link w = None ->
  embed_texts (chunks cas) = Ok vecs ->
  length (chunks cas) <= length vecs ->
  _upsert cas w
  = (Ok {| ingested := length (chunks cas) |},
     upserted default_collection
       (default (fresh default_dim) (collections w !! default_collection))
       (ingest_points (source_id cas) (chunks cas) vecs)
       (ensured default_collection default_dim w)).
Proof.
  intros L He Hlen. rewrite upsert_step_spec. cbn zeta. rewrite He, L.
  by rewrite bool_decide_true.
Qed.

Lemma count_in_default w src :
  record_count w default_collection src
  = count_in (default (fresh default_dim) (collections w !! default_collection))
      src.
Proof.
  rewrite record_count_lookup.
  destruct (collections w !! default_collection); [done|].
  unfold count_in, fresh. cbn. by rewrite map_filter_empty, map_size_empty.
Qed.

(** X8.  When the ids of the chunks are pairwise different and none of them
    is in the collection yet, a successful ingest step adds exactly one
    record per chunk to the records of its source, and leaves the number of
    records of every other source as it was. *)
Theorem ingest_adds_one_record_per_chunk `{Externals} cas w vecs :
  link w = None ->
  embed_texts (chunks cas) = Ok vecs ->
  length (chunks cas) <= length vecs ->
  NoDup (chunk_ids (source_id cas) (length (chunks cas))) ->
  (forall a c, a ∈ chunk_ids (source_id cas) (length (chunks cas)) ->
               collections w !! default_collection = Some c ->
               points c !! a = None) ->
  exists r w',
    _upsert cas w = (Ok r, w')
    /\ record_count w' default_collection (source_id cas)
       = record_count w default_collection (source_id cas) + length (chunks cas)
    /\ forall src, src ≠ source_id cas ->
         record_count w' default_collection src
         = record_count w default_collection src.
Proof.
  intros L He Hlen Hnd Hfresh. eexists _, _.
  split; [by apply upsert_step_ok|].
  set (c0 := default (fresh default_dim) (collections w !! default_collection)).
  set (pts := ingest_points (source_id cas) (chunks cas) vecs).
  assert (forall src,
    record_count (upserted default_collection c0 pts
                    (ensured default_collection default_dim w))
      default_collection src
    = record_count w default_collection src
      + (if decide (source_id cas = src) then length (chunks cas) else 0))
    as Hcount.
  { intros src. rewrite (count_in_default w). fold c0.
    rewrite record_count_lookup. unfold upserted. cbn [collections].
    rewrite lookup_insert_eq. unfold count_in at 1, written. cbn [points].
    rewrite count_written_fresh.
    - unfold pts. by rewrite ingest_points_sources.
    - unfold pts. by rewrite ingest_points_ids.
    - unfold pts. rewrite ingest_points_ids by done. intros a Ha.
      unfold c0. destruct (collections w !! default_collection) as [c|] eqn:C.
      + by apply (Hfresh a c).
      + done. }
  split.
  - rewrite Hcount. by rewrite decide_True.
  - intros src Hne. rewrite Hcount. rewrite decide_False by done. lia.
Qed.


Lemma ingest_adds_one_record_per_chunk_witness :
  let cas := {| chunks := ["one"; "two"]; source_id := "notes.pdf" |} in
  exists r w',
    @_upsert Demo.externals cas Demo.mixed_world = (Ok r, w')
    /\ record_count w' default_collection "notes.pdf"
       = record_count Demo.mixed_world default_collection "notes.pdf" + 2
    /\ forall src, src ≠ "notes.pdf" ->
         record_count w' default_collection src
         = record_count Demo.mixed_world default_collection src.
Proof.
  intros cas.
  apply (@ingest_adds_one_record_per_chunk Demo.externals cas Demo.mixed_world
           (replicate 2 (replicate EMBED_DIM 3%Q)));
    [reflexivity | vm_compute; reflexivity | simpl; lia | |].
  - apply (bool_decide_unpack _). vm_compute. exact I.
  - intros a c Ha [= <-]. vm_compute in Ha.
    apply elem_of_cons in Ha as [-> | Ha];
      [|apply elem_of_cons in Ha as [-> | Ha%elem_of_nil]];
      [vm_compute; reflexivity | vm_compute; reflexivity | done].
Defined.

(** X9.  After a successful ingest step the collection holds, under the id
    of chunk [i], a record whose payload is the source id and the text of
    chunk [i], provided no later chunk of the document has the same id.
    (In which form the service keeps the vector is left open.) *)
Theorem ingest_stores_chunk `{Externals} cas w vecs i c :
  link w = None ->
  embed_texts (chunks cas) = Ok vecs ->
  length (chunks cas) <= length vecs ->
  chunks cas !! i = Some c ->
  (forall j, i < j -> j < length (chunks cas) ->
     uuid5 (id_name (source_id cas) j) ≠ uuid5 (id_name (source_id cas) i)) ->
  exists r w' col,
    _upsert cas w = (Ok r, w')
    /\ collections w' !! default_collection = Some col
    /\ sp_payload <$> points col !! uuid5 (source_id cas ++ ": " ++ pretty i)
       = Some (<["source" := source_id cas]> (<["text" := c]> ∅)).
Proof.
  intros L He Hlen Hc Hlast.
  assert (i < length (chunks cas)) as Hi by (by eapply lookup_lt_Some).
  destruct (lookup_lt_is_Some_2 vecs i ltac:(lia)) as [v Hv].
  eexists _, _, _.
  split; [by apply upsert_step_ok|]. split.
  { unfold upserted. cbn [collections]. by rewrite lookup_insert_eq. }
  unfold written. cbn [points].
  set (m := points (default (fresh default_dim)
                      (collections w !! default_collection))).
  assert (foldl write_point m
            (ingest_points (source_id cas) (chunks cas) vecs)
          !! uuid5 (id_name (source_id cas) i)
          = Some {| sp_vector := v;
                    sp_payload := payload_of (source_id cas) c |}) as Hp.
  { apply (write_points_lookup_last _ _ i
             {| id := uuid5 (id_name (source_id cas) i); vector := v;
                payload := payload_of (source_id cas) c |}).
    - unfold ingest_points. apply triples_lookup; [|done|].
      + by apply chunk_ids_lookup.
      + by rewrite list_lookup_fmap, Hc.
    - cbn [id]. intros j q Hj Hq Heq. unfold ingest_points in Hq.
      apply triples_lookup_id in Hq.
      assert (j < length (chunks cas)) as Hjn.
      { apply lookup_lt_Some in Hq. by rewrite chunk_ids_length in Hq. }
      rewrite chunk_ids_lookup in Hq by done. injection Hq as Hq.
      apply (Hlast j Hj Hjn). unfold id_name. by rewrite Hq. }
  unfold id_name in Hp. by rewrite Hp.
Qed.

Lemma ingest_stores_chunk_witness :
  let cas := {| chunks := ["one"; "two"]; source_id := "notes.pdf" |} in
  exists r w' col,
    @_upsert Demo.externals cas Demo.empty_world = (Ok r, w')
    /\ collections w' !! default_collection = Some col
    /\ sp_payload <$> points col
                      !! @uuid5 Demo.externals ("notes.pdf" ++ ": " ++ pretty 0)
       = Some (<["source" := "notes.pdf"]> (<["text" := "one"]> ∅)).
Proof.
  intros cas.
  apply (@ingest_stores_chunk Demo.externals cas Demo.empty_world
           (replicate 2 (replicate EMBED_DIM 3%Q)) 0 "one");
    [reflexivity | vm_compute; reflexivity | simpl; lia | reflexivity |].
  intros [|[|j]] H0 Hj; [lia | vm_compute; discriminate | simpl in Hj; lia].
Defined.

(** ** Chunking page by page *)

Lemma elem_of_concat {A} (x : A) (ls : list (list A)) :
  x ∈ concat ls <-> exists l, x ∈ l /\ l ∈ ls.
Proof.
  induction ls as [|l ls IH]; cbn.
  - split; [by intros ?%elem_of_nil | by intros (l & _ & ?%elem_of_nil)].
  - rewrite elem_of_app, IH. split.
    + intros [Hx | (l' & Hx & Hl)].
      * exists l. split; [done | left].
      * exists l'. split; [done | by right].
    + intros (l' & Hx & [-> | Hl]%elem_of_cons); [by left|].
      right. by exists l'.
Qed.

(** X10.  The chunks of a document are the chunks of its pages in page
    order: a page without text contributes nothing, the chunks of an earlier
    page all come before those of a later page, and every chunk is a chunk
    the splitter made of the text of one page. *)
Theorem chunks_follow_pages `{Externals} path docs :
  load_data path = Ok docs ->
  exists cs,
    load_and_chunk_pdf path = Ok cs
    /\ (forall docs1 docs2, docs = (docs1 ++ docs2)%list ->
          cs = (concat (split_text <$> omap has_text docs1)
                ++ concat (split_text <$> omap has_text docs2))%list)
    /\ (forall c, c ∈ cs <->
          exists d t, d ∈ docs /\ text d = Some t /\ t ≠ "" /\ c ∈ split_text t).
Proof.
  intros Hl. eexists. split; [by rewrite load_and_chunk_spec, Hl|]. split.
  - intros docs1 docs2 ->. by rewrite omap_app, fmap_app, concat_app.
  - intros c. rewrite elem_of_concat. split.
    + intros (l & Hc & Hl'). apply list_elem_of_fmap in Hl' as (t & -> & Ht).
      apply list_elem_of_omap in Ht as (d & Hd & Ht). exists d, t.
      unfold has_text in Ht. destruct (text d) as [t'|]; [|done].
      case_bool_decide; [|done]. by injection Ht as ->.
    + intros (d & t & Hd & Ht & Hne & Hc). exists (split_text t).
      split; [done|]. apply list_elem_of_fmap_2.
      apply list_elem_of_omap. exists d. split; [done|].
      unfold has_text. rewrite Ht. by rewrite bool_decide_true.
Qed.

Lemma chunks_follow_pages_witness :
  let page := {| text := Some "Refunds are processed within 30 days." |} in
  exists cs,
    @load_and_chunk_pdf Demo.externals "policy.pdf" = Ok cs
    /\ (forall docs1 docs2, [page] = (docs1 ++ docs2)%list ->
          cs = (concat (@split_text Demo.externals <$> omap has_text docs1)
                ++ concat (@split_text Demo.externals <$> omap has_text docs2))%list)
    /\ (forall c, c ∈ cs <->
          exists d t, d ∈ [page] /\ text d = Some t /\ t ≠ ""
                      /\ c ∈ @split_text Demo.externals t).
Proof.
  intros page.
  apply (@chunks_follow_pages Demo.externals "policy.pdf"). reflexivity.
Defined.

(** ** The query step *)

Lemma search_step_spec `{Externals} question top_k w :
  _search question top_k w
  = match embed_texts [question] with
    | Raise e => (Raise e, w)
    | Ok [] => (Raise "IndexError", w)
    | Ok (v :: _) =>
        match link w with
        | Some e => (Raise e, logged (ReqCollectionExists default_collection) w)
        | None =>
            let c0 := default (fresh default_dim)
                        (collections w !! default_collection) in
            let found := found_of (take top_k (rank c0 v)) in
            (Ok {| rs_contexts := contexts found; rs_sources := sources found |},
             logged (ReqSearch default_collection v top_k)
               (ensured default_collection default_dim w))
        end
    end.
Proof.
  unfold _search. unfold bind at 1, lift.
  destruct (embed_texts [question]) as [[|v vs]|e]; [done| |done].
  unfold bind at 1. cbn [py_index lookup list_lookup]. unfold bind at 1.
  rewrite init_spec. destruct (link w) as [e|] eqn:L; [done|].
  assert (forall w0 c0,
    link w0 = None -> collections w0 !! default_collection = Some c0 ->
    bind (QdrantStorage.search
            {| QdrantStorage.collection := default_collection |} v top_k)
         (fun found => ret {| rs_contexts := contexts found;
                              rs_sources := sources found |}) w0
    = (Ok {| rs_contexts := contexts (found_of (take top_k (rank c0 v)));
             rs_sources := sources (found_of (take top_k (rank c0 v))) |},
       logged (ReqSearch default_collection v top_k) w0)) as Hs.
  { intros w0 c0 L0 C0. unfold bind. by rewrite (search_ok _ _ _ _ c0). }
  unfold ensured, fresh.
  destruct (collections w !! default_collection) as [c|] eqn:C;
    cbv beta iota zeta; cbn [default].
  - apply Hs; [done|]. by cbn.
  - rewrite <- L. apply Hs; [done|]. cbn. by rewrite lookup_insert_eq.
Qed.

(** X11.  When embedding the question raises, or the embedding capability
    answers with no vector at all, the query step raises (in the second case
    [IndexError]) and has made no request to the store. *)
Theorem query_step_fails_before_store `{Externals} question top_k w e :
  embed_texts [question] = Raise e
  \/ (embed_texts [question] = Ok [] /\ e = "IndexError") ->
  _search question top_k w = (Raise e, w).
Proof.
  intros [He | [He ->]]; rewrite search_step_spec; by rewrite He.
Qed.

Lemma query_step_fails_before_store_witness :
  @_search Faulty.short_externals "What is the refund policy?" 5 Demo.mixed_world
  = (Raise "IndexError", Demo.mixed_world).
Proof.
  apply (@query_step_fails_before_store Faulty.short_externals).
  right. split; reflexivity.
Defined.

(** X12.  A query writes to the store when the collection is missing: the
    store construction inside the query step creates the collection, empty,
    before the search is made, and the query is answered from the ranking of
    that empty collection. *)
Theorem query_creates_missing_collection `{Externals} question top_k w v vs :
  embed_texts [question] = Ok (v :: vs) ->
  link w = None ->
  collections w !! default_collection = None ->
  exists res w',
    _search question top_k w = (Ok res, w')
    /\ collections w'
       = <[default_collection := fresh default_dim]> (collections w)
    /\ calls w'
       = ReqSearch default_collection v top_k
         :: ReqCreateCollection default_collection default_dim COSINE
         :: ReqCollectionExists default_collection :: calls w
    /\ rs_contexts res
       = hit_text <$> kept (take top_k (rank (fresh default_dim) v)).
Proof.
  intros He L C. eexists _, _. split.
  { rewrite search_step_spec, He, L. cbn zeta. rewrite C. done. }
  unfold ensured. rewrite C. done.
Qed.

Lemma query_creates_missing_collection_witness :
  let v := replicate EMBED_DIM 26%Q in
  exists res w',
    @_search Demo.externals "What is the refund policy?" 5 Demo.empty_world
    = (Ok res, w')
    /\ collections w'
       = <[default_collection := fresh default_dim]> (collections Demo.empty_world)
    /\ calls w'
       = ReqSearch default_collection v 5
         :: ReqCreateCollection default_collection default_dim COSINE
         :: ReqCollectionExists default_collection :: calls Demo.empty_world
    /\ rs_contexts res
       = hit_text <$> kept (take 5 (@rank Demo.externals (fresh default_dim) v)).
Proof.
  intros v.
  apply (@query_creates_missing_collection Demo.externals
           "What is the refund policy?" 5 Demo.empty_world v []);
    [vm_compute; reflexivity | reflexivity | reflexivity].
Defined.

(** ** Ingest, then search *)

(** The ranking of [Demo] lists every record of the collection. *)
Lemma demo_rank_all col q k a p :
  size (points col) <= k ->
  points col !! a = Some p ->
  {| hit_id := a; hit_payload := Some (sp_payload p) |}
  ∈ take k (@rank Demo.externals col q).
Proof.
  intros Hk Ha. cbn [rank Demo.externals].
  rewrite take_ge.
  - change (map ?f ?l) with (f <$> l).
    apply (list_elem_of_fmap_2' _ _ (a, p)); [|done].
    rewrite merge_sort_Permutation. by apply elem_of_map_to_list.
  - rewrite length_map, merge_sort_Permutation, length_map_to_list. done.
Qed.

(** X13.  A chunk with a non-empty text that a successful ingest step has
    stored is returned by a search afterwards, its text among the contexts
    and its source among the sources, whenever the service returns every
    record of the collection among the [top_k] hits (and no later chunk of
    the document has taken the id of this one). *)
Theorem ingested_chunk_is_retrieved `{Externals}
    cas w r w1 col query_vector top_k i c :
  _upsert cas w = (Ok r, w1) ->
  collections w1 !! default_collection = Some col ->
  (forall a p, points col !! a = Some p ->
     {| hit_id := a; hit_payload := Some (sp_payload p) |}
     ∈ take top_k (rank col query_vector)) ->
  chunks cas !! i = Some c ->
  c ≠ "" ->
  (forall j, i < j -> j < length (chunks cas) ->
     uuid5 (id_name (source_id cas) j) ≠ uuid5 (id_name (source_id cas) i)) ->
  exists found w2,
    QdrantStorage.search {| QdrantStorage.collection := default_collection |}
      query_vector top_k w1 = (Ok found, w2)
    /\ c ∈ contexts found
    /\ source_id cas ∈ sources found.
Proof.
  intros Hrun Hcol Hrank Hc Hne Hlast.
  rewrite upsert_step_spec in Hrun. cbn zeta in Hrun.
  destruct (embed_texts (chunks cas)) as [vecs|e] eqn:He; [|done].
  destruct (link w) as [e|] eqn:L; [done|].
  case_bool_decide as Hlen; [|done]. injection Hrun as <- <-.
  assert (i < length (chunks cas)) as Hi by (by eapply lookup_lt_Some).
  destruct (lookup_lt_is_Some_2 vecs i ltac:(lia)) as [v Hv].
  unfold upserted in Hcol. cbn [collections] in Hcol.
  rewrite lookup_insert_eq in Hcol. injection Hcol as <-.
  set (c0 := default (fresh default_dim) (collections w !! default_collection))
    in *.
  assert (points (written c0 (ingest_points (source_id cas) (chunks cas) vecs))
          !! uuid5 (id_name (source_id cas) i)
          = Some {| sp_vector := v;
                    sp_payload := payload_of (source_id cas) c |}) as Hp.
  { unfold written. cbn [points].
    apply (write_points_lookup_last _ _ i
             {| id := uuid5 (id_name (source_id cas) i); vector := v;
                payload := payload_of (source_id cas) c |}).
    - unfold ingest_points. apply triples_lookup; [|done|].
      + by apply chunk_ids_lookup.
      + by rewrite list_lookup_fmap, Hc.
    - cbn [id]. intros j q Hj Hq Heq. unfold ingest_points in Hq.
      apply triples_lookup_id in Hq.
      assert (j < length (chunks cas)) as Hjn.
      { apply lookup_lt_Some in Hq. by rewrite chunk_ids_length in Hq. }
      rewrite chunk_ids_lookup in Hq by done. injection Hq as Hq.
      apply (Hlast j Hj Hjn). unfold id_name. by rewrite Hq. }
  apply Hrank in Hp. cbn [sp_payload] in Hp.
  set (h := {| hit_id := uuid5 (id_name (source_id cas) i);
               hit_payload := Some (payload_of (source_id cas) c) |}) in *.
  assert (hit_text h = c) as Ht.
  { unfold hit_text, h. cbn. by rewrite payload_of_text. }
  assert (hit_source h = source_id cas) as Hs.
  { unfold hit_source, h. cbn. by rewrite payload_of_source. }
  eexists _, _. split.
  { apply search_ok.
    - unfold upserted. cbn [link]. by rewrite ensured_link.
    - unfold upserted. cbn [collections QdrantStorage.collection].
      by rewrite lookup_insert_eq. }
  split.
  - cbn [found_of contexts]. apply (list_elem_of_fmap_2' _ _ h); [|done].
    unfold kept. apply list_elem_of_filter. by rewrite Ht.
  - apply sources_spec. exists h. by rewrite Ht.
Qed.

Lemma ingested_chunk_is_retrieved_witness :
  let cas := {| chunks := ["Refunds are processed within 30 days."];
                source_id := "policy.pdf" |} in
  let w1 := (@_upsert Demo.externals cas Demo.empty_world).2 in
  let col := default (fresh 0) (collections w1 !! default_collection) in
  exists found w2,
    @QdrantStorage.search Demo.externals Demo.docs [1%Q] 5 w1 = (Ok found, w2)
    /\ "Refunds are processed within 30 days." ∈ contexts found
    /\ "policy.pdf" ∈ sources found.
Proof.
  intros cas w1 col.
  apply (@ingested_chunk_is_retrieved Demo.externals cas Demo.empty_world
           {| ingested := 1 |} w1 col [1%Q] 5 0);
    [vm_compute; reflexivity | vm_compute; reflexivity | | reflexivity
    | discriminate | simpl; lia].
  intros a p. apply demo_rank_all. vm_compute. lia.
Defined.

(** * The query function *)

Example demo_query :
  (@rag_query_pdf_ai Demo.externals DemoServices.services
     {| question := "What is the refund policy?"; ev_top_k := None |}
     (DemoServices.outside Demo.mixed_world)).1
  = Ok {| answer := "Refunds take 30 days.";
          answer_sources := ["policy.pdf"; ""];
          num_contexts := 2 |}.
Proof. vm_compute. reflexivity. Qed.

Example demo_alert :
  let r := @rag_alert_new_doc DemoServices.services
             {| alert_source_id := "policy.pdf";
                alert_chunks := ["a"; "b"; "c"; "d"; "e"; "f"] |}
             (DemoServices.outside Demo.empty_world) in
  r.1 = Ok {| alert_sent := true; summary := "Refunds take 30 days." |}
  /\ (content <$> (messages ∘ body <$> inferred r.2) !! 0 ≫= (.!! 1))
     = Some ("Summarize this document:" ++ nl
             ++ "a" ++ nl ++ nl ++ "b" ++ nl ++ nl ++ "c" ++ nl ++ nl
             ++ "d" ++ nl ++ nl ++ "e").
Proof. vm_compute. done. Qed.

Lemma query_spec `{Externals} `{Services} ev o :
  rag_query_pdf_ai ev o
  = match _search (question ev) (default 5 (ev_top_k ev)) (store o) with
    | (Raise e, w') => (Raise e, with_store w' o)
    | (Ok found, w') =>
        let call := query_call (rs_contexts found) (question ev) in
        let o' := asked call (with_store w' o) in
        match infer call with
        | Raise e => (Raise e, o')
        | Ok res =>
            match choices res with
            | [] => (Raise "IndexError", o')
            | c :: _ =>
                (Ok {| answer := strip (message_content c);
                       answer_sources := rs_sources found;
                       num_contexts := length (rs_contexts found) |}, o')
            end
        end
    end.
Proof.
  unfold rag_query_pdf_ai. cbn zeta. unfold pbind at 1, on_store.
  destruct (_search (question ev) (default 5 (ev_top_k ev)) (store o))
    as [[found|e] w']; [|done].
  unfold pbind at 1, ai_infer. cbn [store inferred mailed].
  fold (query_call (rs_contexts found) (question ev)).
  unfold asked, with_store. cbn [store inferred mailed].
  destruct (infer (query_call (rs_contexts found) (question ev))) as [res|e];
    [|done].
  unfold pbind, plift, pret, first_content.
  by destruct (choices res) as [|c cs].
Qed.

(** X14.  When the retrieval step of a query raises, the query raises the
    same exception and no request is made to the completion service: no
    answer is made up without a retrieval. *)
Theorem query_fails_without_inference `{Externals} `{Services} ev o e w' :
  _search (question ev) (default 5 (ev_top_k ev)) (store o) = (Raise e, w') ->
  rag_query_pdf_ai ev o = (Raise e, with_store w' o)
  /\ inferred (rag_query_pdf_ai ev o).2 = inferred o.
Proof. intros Hs. rewrite query_spec, Hs. done. Qed.

Lemma query_fails_without_inference_witness :
  let ev := {| question := "What is the refund policy?"; ev_top_k := Some 3 |} in
  let o := DemoServices.outside Demo.unreachable_world in
  let w' := logged (ReqCollectionExists "docs") Demo.unreachable_world in
  @rag_query_pdf_ai Demo.externals DemoServices.services ev o
  = (Raise "ResponseHandlingException", with_store w' o)
  /\ inferred (@rag_query_pdf_ai Demo.externals DemoServices.services ev o).2
     = inferred o.
Proof.
  intros ev o w'.
  apply (@query_fails_without_inference Demo.externals DemoServices.services).
  vm_compute. reflexivity.
Defined.

(** X15.  When the retrieval step succeeds, the query makes exactly one
    request to the completion service, whatever was retrieved.  With no
    context retrieved the request is still made, and its prompt has nothing
    between the context heading and the question. *)
Theorem query_asks_even_without_context `{Externals} `{Services} ev o found w' :
  _search (question ev) (default 5 (ev_top_k ev)) (store o) = (Ok found, w') ->
  inferred (rag_query_pdf_ai ev o).2
  = query_call (rs_contexts found) (question ev) :: inferred o
  /\ (rs_contexts found = [] ->
      content <$> last (messages (body (query_call (rs_contexts found)
                                          (question ev))))
      = Some ("Use the following context to answer the question. " ++ nl ++ nl
              ++ "Context:" ++ nl ++ nl ++ nl
              ++ "Question: " ++ question ev ++ nl
              ++ "Answer concisely using the context above.")).
Proof.
  intros Hs. split.
  - rewrite query_spec, Hs. cbn zeta.
    match goal with
    | |- context [infer ?call] => destruct (infer call) as [res|e]; [|done]
    end.
    by destruct (choices res).
  - intros ->. done.
Qed.

Lemma query_asks_even_without_context_witness :
  let ev := {| question := "What is the refund policy?"; ev_top_k := None |} in
  let o := DemoServices.outside Demo.line_world in
  let found := {| rs_contexts := []; rs_sources := [] |} in
  inferred (@rag_query_pdf_ai Demo.externals DemoServices.services ev o).2
  = @query_call DemoServices.services [] "What is the refund policy?" :: inferred o
  /\ (rs_contexts found = [] ->
      content <$> last (messages (body (@query_call DemoServices.services
                                          (rs_contexts found) (question ev))))
      = Some ("Use the following context to answer the question. " ++ nl ++ nl
              ++ "Context:" ++ nl ++ nl ++ nl
              ++ "Question: " ++ question ev ++ nl
              ++ "Answer concisely using the context above.")).
Proof.
  intros ev o found.
  apply (@query_asks_even_without_context Demo.externals DemoServices.services
           ev o found
           (logged (ReqSearch "docs" (replicate EMBED_DIM 26%Q) 5)
              (logged (ReqCollectionExists "docs") Demo.line_world))).
  vm_compute. reflexivity.
Defined.

(** X16.  A query that returns reports at most [top_k] contexts, 5 when the
    event names no [top_k]; its sources are without repetition and no more
    than its contexts. *)
Theorem query_counts `{Externals} `{Services} ev o qa o' :
  rag_query_pdf_ai ev o = (Ok qa, o') ->
  num_contexts qa <= default 5 (ev_top_k ev)
  /\ length (answer_sources qa) <= num_contexts qa
  /\ NoDup (answer_sources qa).
Proof.
  rewrite query_spec, search_step_spec.
  destruct (embed_texts [question ev]) as [[|v vs]|e]; [done| |done].
  destruct (link (store o)); [done|]. cbv beta iota zeta.
  cbn [rs_contexts rs_sources].
  match goal with
  | |- context [infer ?call] => destruct (infer call) as [res|e]; [|done]
  end.
  destruct (choices res) as [|c cs]; [done|].
  intros [= <- _]. cbn [num_contexts answer_sources rs_contexts rs_sources].
  split_and!.
  - apply contexts_length_take.
  - cbn [found_of contexts sources].
    etrans; [apply elements_list_to_set_length|]. by rewrite !length_fmap.
  - cbn [found_of sources]. apply NoDup_elements.
Qed.

Lemma query_counts_witness :
  let ev := {| question := "What is the refund policy?"; ev_top_k := None |} in
  let r := @rag_query_pdf_ai Demo.externals DemoServices.services ev
             (DemoServices.outside Demo.mixed_world) in
  let qa := {| answer := "Refunds take 30 days.";
               answer_sources := ["policy.pdf"; ""];
               num_contexts := 2 |} in
  r = (Ok qa, r.2)
  /\ num_contexts qa <= 5
  /\ length (answer_sources qa) <= num_contexts qa
  /\ NoDup (answer_sources qa).
Proof.
  intros ev r qa.
  assert (r = (Ok qa, r.2)) as Hr by (vm_compute; reflexivity).
  split; [exact Hr|].
  exact (@query_counts Demo.externals DemoServices.services ev _ qa r.2 Hr).
Defined.

(** ** The prompt of a query *)

Lemma string_app_assoc (a b c : string) : (a ++ b) ++ c = a ++ b ++ c.
Proof.
  induction a as [|x a IH]; [done|].
  change (String x ((a ++ b) ++ c) = String x (a ++ b ++ c)). by rewrite IH.
Qed.

Lemma string_app_nil_r (a : string) : a ++ "" = a.
Proof.
  induction a as [|x a IH]; [done|].
  change (String x (a ++ "") = String x a). by rewrite IH.
Qed.

Lemma context_block_cons c cs :
  query_context_block (c :: cs)
  = "- " ++ c ++ blank_line_unless_empty cs ++ query_context_block cs.
Proof.
  unfold query_context_block, join. destruct cs as [|c' cs].
  - cbn [map String.concat blank_line_unless_empty].
    change ("" ++ "") with "". by rewrite string_app_nil_r.
  - cbn [map String.concat blank_line_unless_empty].
    by rewrite !string_app_assoc.
Qed.

(** X17.  The context block of the prompt lists the retrieved contexts in
    their order, each as an item that starts with a dash, with a blank line
    between two items and none before the first or after the last. *)
Theorem contexts_in_prompt_in_order cs1 c cs2 :
  query_context_block (cs1 ++ c :: cs2)
  = query_context_block cs1 ++ blank_line_unless_empty cs1
    ++ "- " ++ c ++ blank_line_unless_empty cs2 ++ query_context_block cs2.
Proof.
  induction cs1 as [|a cs1 IH].
  - cbn [app]. rewrite context_block_cons. done.
  - cbn [app]. rewrite !context_block_cons, IH.
    destruct cs1 as [|a' cs1]; cbn [app blank_line_unless_empty].
    + change (query_context_block []) with "".
      change ("" ++ ?x) with x. by rewrite !string_app_assoc.
    + by rewrite !string_app_assoc.
Qed.

Example demo_context_block :
  query_context_block ["one"; "two"] = "- one" ++ nl ++ nl ++ "- two".
Proof. reflexivity. Qed.

(** * The alert function *)

Lemma alert_spec `{Services} ev o :
  rag_alert_new_doc ev o
  = let call := alert_call (alert_chunks ev) in
    let o1 := asked call o in
    match infer call with
    | Raise e => (Raise e, o1)
    | Ok res =>
        match choices res with
        | [] => (Raise "IndexError", o1)
        | c :: _ =>
            let s := strip (message_content c) in
            let connect := SmtpConnect "smtp.gmail.com" 465 in
            match smtp_raises connect with
            | Some e => (Raise e, mailing [connect] o1)
            | None =>
                let blk := mail_block (alert_message (alert_source_id ev) s)
                             (getenv "GMAIL_APP_PASSWORD") in
                let o2 := mailing (SmtpQuit :: (blk.2 ++ [connect])%list) o1 in
                match smtp_raises SmtpQuit with
                | Some e => (Raise e, o2)
                | None =>
                    match blk.1 with
                    | Ok _ => (Ok {| alert_sent := true; summary := s |}, o2)
                    | Raise e => (Raise e, o2)
                    end
                end
            end
        end
    end.
Proof.
  unfold rag_alert_new_doc. cbn zeta. unfold pbind at 1, ai_infer.
  fold (alert_call (alert_chunks ev)). unfold asked.
  destruct (infer (alert_call (alert_chunks ev))) as [res|e]; [|done].
  unfold pbind at 1, plift, first_content.
  destruct (choices res) as [|c cs]; [done|].
  cbn [py_index lookup list_lookup result_bind].
  fold (alert_message (alert_source_id ev) (strip (message_content c))).
  unfold pbind at 1, with_smtp_ssl, pbind at 1, smtp at 1.
  cbn [store inferred mailed].
  destruct (smtp_raises (SmtpConnect "smtp.gmail.com" 465)) as [e|]; [done|].
  unfold mail_block, mailing, pret.
  cbn [alert_message mime_from mime_to store inferred mailed].
  fold (alert_message (alert_source_id ev) (strip (message_content c))).
  unfold pbind, smtp, plift. cbn [store inferred mailed].
  destruct (smtp_raises (SmtpLogin _ _)) as [e|].
  { cbn. by destruct (smtp_raises SmtpQuit). }
  destruct (as_string _) as [data|e].
  2:{ cbn. by destruct (smtp_raises SmtpQuit). }
  destruct (smtp_raises (SmtpSendmail _ _ _)) as [e|];
    cbn; by destruct (smtp_raises SmtpQuit).
Qed.

(** X18.  Without a summary no mail: when the completion service raises, or
    answers with no choice at all, the alert raises (in the second case
    [IndexError]) after its one inference request, and nothing has been
    asked of the mail server. *)
Theorem alert_needs_summary `{Services} ev o e :
  let call := alert_call (alert_chunks ev) in
  infer call = Raise e
  \/ (exists res, infer call = Ok res /\ choices res = [] /\ e = "IndexError") ->
  rag_alert_new_doc ev o = (Raise e, asked call o)
  /\ mailed (rag_alert_new_doc ev o).2 = mailed o.
Proof.
  intros call Hi. rewrite alert_spec. cbn zeta. fold call.
  destruct Hi as [-> | (res & -> & -> & ->)]; done.
Qed.

Lemma alert_needs_summary_witness :
  let ev := {| alert_source_id := "policy.pdf"; alert_chunks := ["a"; "b"] |} in
  let o := DemoServices.outside Demo.empty_world in
  @rag_alert_new_doc DemoServices.no_completion ev o
  = (Raise "APIConnectionError",
     asked (@alert_call DemoServices.no_completion ["a"; "b"]) o)
  /\ mailed (@rag_alert_new_doc DemoServices.no_completion ev o).2 = mailed o.
Proof.
  intros ev o.
  apply (@alert_needs_summary DemoServices.no_completion ev o).
  left. reflexivity.
Defined.

(** X19.  When the completion service answers and nothing on the way to the
    mail server raises, the alert returns [alert_sent = True] with the
    stripped first choice as summary, after exactly these actions on the
    mail server, in this order: connect to [smtp.gmail.com] on port 465, log
    in as the sender, send one message from the sender to the one receiver,
    quit.  The inference request is the one for the first five chunks. *)
Theorem alert_sends_one_mail `{Services} ev o res c cs data :
  let call := alert_call (alert_chunks ev) in
  let s := strip (message_content c) in
  let sender := getenv "GMAIL_SENDER" in
  let receiver := getenv "GMAIL_RECEIVER" in
  let connect := SmtpConnect "smtp.gmail.com" 465 in
  let login := SmtpLogin sender (getenv "GMAIL_APP_PASSWORD") in
  let send := SmtpSendmail sender [receiver] data in
  infer call = Ok res ->
  choices res = c :: cs ->
  as_string (alert_message (alert_source_id ev) s) = Ok data ->
  smtp_raises connect = None ->
  smtp_raises login = None ->
  smtp_raises send = None ->
  smtp_raises SmtpQuit = None ->
  rag_alert_new_doc ev o
  = (Ok {| alert_sent := true; summary := s |},
     mailing [SmtpQuit; send; login; connect] (asked call o))
  /\ call = alert_call (take 5 (alert_chunks ev)).
Proof.
  intros call s sender receiver connect login send Hi Hc Hd Hco Hl Hs Hq.
  split.
  - rewrite alert_spec. cbn zeta. fold call. rewrite Hi, Hc. fold s connect.
    rewrite Hco, Hq. unfold mail_block. cbn zeta.
    cbn [alert_message mime_from mime_to].
    fold (alert_message (alert_source_id ev) s). fold sender receiver login.
    rewrite Hl, Hd. fold send. by rewrite Hs.
  - unfold call, alert_call. by rewrite take_take, Nat.min_id.
Qed.

Lemma alert_sends_one_mail_witness :
  let ev := {| alert_source_id := "policy.pdf";
               alert_chunks := ["a"; "b"; "c"; "d"; "e"; "f"] |} in
  let o := DemoServices.outside Demo.empty_world in
  let S := DemoServices.services in
  let s := "Refunds take 30 days." in
  let data := "Subject: " ++ mime_subject (@alert_message S "policy.pdf" s)
              ++ nl ++ nl ++ mime_text (@alert_message S "policy.pdf" s) in
  @rag_alert_new_doc S ev o
  = (Ok {| alert_sent := true; summary := s |},
     mailing [SmtpQuit;
              SmtpSendmail (Some "rag@example.org") [Some "team@example.org"] data;
              SmtpLogin (Some "rag@example.org") (Some "app-password");
              SmtpConnect "smtp.gmail.com" 465]
       (asked (@alert_call S (alert_chunks ev)) o))
  /\ @alert_call S (alert_chunks ev) = @alert_call S ["a"; "b"; "c"; "d"; "e"].
Proof.
  intros ev o S s data.
  apply (@alert_sends_one_mail S ev o
           {| choices := [ {| message_content := s |} ] |}
           {| message_content := s |} [] data); reflexivity.
Defined.




Example demo_alert_without_chunks :
  let o := DemoServices.outside Demo.mixed_world in
  @rag_alert_new_doc_on DemoServices.services
    {| data_source_id := Some "policy.pdf"; data_chunks := None |} o
  = (Raise "KeyError", o).
Proof. reflexivity. Qed.

Example demo_alert_on_data :
  let o := DemoServices.outside Demo.mixed_world in
  let r := @rag_alert_new_doc_on DemoServices.services
             {| data_source_id := Some "policy.pdf";
                data_chunks := Some ["a"; "b"; "c"; "d"; "e"; "f"] |} o in
  r.1 = Ok {| alert_sent := true; summary := "Refunds take 30 days." |}
  /\ store r.2 = Demo.mixed_world
  /\ inferred r.2
     = [@alert_call DemoServices.services ["a"; "b"; "c"; "d"; "e"]].
Proof. vm_compute. done. Qed.
